(** * Asset utilities of the builder: a shallow embedding and its properties

    Source: [apps/builder/app/builder/shared/assets/asset-utils.ts].

    The file embeds, function by function, the image name/type resolver,
    the SHA-256 digest helpers and the conversion of an uploading record
    into an [Asset].  JavaScript strings are sequences of UTF-16 code
    units; platform services (the URL parser, [nanoid], [FileReader],
    [crypto.subtle.digest]) are either parameters of a section or, for
    SHA-256, written out after FIPS 180-4. *)

From Stdlib Require Import List NArith ZArith Bool Lia.
From Stdlib Require Strings.String Strings.Ascii.
From Stdlib Require Import Init.Byte Strings.Byte.
Import ListNotations String.StringSyntax.

Local Open Scope string_scope.
Local Open Scope N_scope.
Local Open Scope list_scope.

(* ================================================================== *)
(** ** JavaScript strings *)
(* ================================================================== *)

Module Js.

(** A UTF-16 code unit, and a string as the list of its code units. *)
Definition codeUnit := N.
Definition jsstring := list codeUnit.

(** A source literal (ASCII) as a JavaScript string. *)
Definition js (s : String.string) : jsstring :=
  map Ascii.N_of_ascii (String.list_ascii_of_string s).

(** [a === b] on strings. *)
Fixpoint streq (a b : jsstring) : bool :=
  match a, b with
  | [], [] => true
  | x :: a', y :: b' => (x =? y) && streq a' b'
  | _, _ => false
  end.

(** [=== ] between two possibly undefined strings. *)
Definition strictEq (a b : option jsstring) : bool :=
  match a, b with
  | Some x, Some y => streq x y
  | None, None => true
  | _, _ => false
  end.

(** [String.prototype.endsWith(searchString)]: the search string has to
    fit, and the code units from [len - searchLength] on equal it. *)
Definition endsWith (s searchString : jsstring) : bool :=
  let len := length s in
  let searchLength := length searchString in
  if (len <? searchLength)%nat then false
  else streq (skipn (len - searchLength) s) searchString.

(** [s?.endsWith(searchString)] as a condition: [undefined] is falsy. *)
Definition optEndsWith (s : option jsstring) (searchString : jsstring)
  : bool :=
  match s with Some s => endsWith s searchString | None => false end.

(** [String.prototype.startsWith(searchString)]. *)
Definition startsWith (s searchString : jsstring) : bool :=
  let searchLength := length searchString in
  if (length s <? searchLength)%nat then false
  else streq (firstn searchLength s) searchString.

(** [s.split(sep)] for a separator of one code unit: never empty,
    [''.split('/')] is [['']]. *)
Fixpoint split (sep : codeUnit) (s : jsstring) : list jsstring :=
  match s with
  | [] => [[]]
  | c :: s' =>
      if c =? sep then [] :: split sep s'
      else match split sep s' with
           | seg :: segs => (c :: seg) :: segs
           | [] => [[c]]
           end
  end.

(** [array.at(-1)]. *)
Fixpoint at_last {A} (l : list A) : option A :=
  match l with
  | [] => None
  | [x] => Some x
  | _ :: l' => at_last l'
  end.

(** [a ?? b]. *)
Definition nullish {A} (a : option A) (b : A) : A :=
  match a with Some x => x | None => b end.

(** [a ?? b] where [b] may itself be undefined. *)
Definition nullishOpt {A} (a b : option A) : option A :=
  match a with Some x => Some x | None => b end.

(** Truthiness of a possibly undefined string: [undefined] and [''] are
    falsy. *)
Definition truthy (a : option jsstring) : bool :=
  match a with
  | Some (_ :: _) => true
  | _ => false
  end.

(** [`${x}`] for a possibly undefined string. *)
Definition template (a : option jsstring) : jsstring :=
  nullish a (js "undefined").

(** [Array.prototype.indexOf] (strict equality), [-1] when absent. *)
Fixpoint indexOf (l : list jsstring) (x : jsstring) : Z :=
  match l with
  | [] => (-1)%Z
  | y :: l' =>
      if streq y x then 0%Z
      else let i := indexOf l' x in
           if (i <? 0)%Z then (-1)%Z else (i + 1)%Z
  end.

(** [array[index]] for an integer index. *)
Definition index {A} (l : list A) (i : Z) : option A :=
  if (i <? 0)%Z then None else nth_error l (Z.to_nat i).

(** [String.prototype.padStart(targetLength, padString)]. *)
Definition padStart (targetLength : nat) (padString s : jsstring)
  : jsstring :=
  let len := length s in
  if (targetLength <=? len)%nat then s
  else match padString with
       | [] => s
       | _ :: _ =>
           let fillLen := (targetLength - len)%nat in
           firstn fillLen (concat (repeat padString fillLen)) ++ s
       end.

End Js.
Import Js.

(* ================================================================== *)
(** ** Regular expressions *)
(* ================================================================== *)

(** The backtracking matcher of ECMAScript for the constructs the source
    uses: [\b], literal characters, character classes, greedy [+] over a
    class, alternatives, sequences and capture groups.  Matchers are in
    continuation-passing style as in the language's definition: a
    continuation that fails makes the matcher try its next choice. *)
Module RegExp.

Inductive regex :=
| Empty
| WordBoundary                          (* \b *)
| Char (c : codeUnit)                   (* a literal character *)
| Class (p : codeUnit -> bool)          (* [...] or [^...] *)
| ClassPlus (p : codeUnit -> bool)      (* [...]+, greedy *)
| Seq (r1 r2 : regex)
| Alt (r1 r2 : regex)                   (* r1|r2 *)
| Group (n : nat) (r : regex).          (* the n-th capture group *)

(** A literal string. *)
Definition lit (s : jsstring) : regex :=
  fold_right (fun c r => Seq (Char c) r) Empty s.

(** A position in the input: the code unit before it and the input from
    it on. *)
Record pos := Pos { before : option codeUnit; rest : jsstring }.

Definition captures := list (nat * jsstring).

(** [match[n]]: the last text group [n] captured, if any. *)
Fixpoint capture (n : nat) (cs : captures) : option jsstring :=
  match cs with
  | [] => None
  | (m, t) :: cs' => if (m =? n)%nat then Some t else capture n cs'
  end.

(** [\w]: [A-Za-z0-9_]. *)
Definition isWordChar (c : codeUnit) : bool :=
  ((48 <=? c) && (c <=? 57)) || ((65 <=? c) && (c <=? 90))
  || (c =? 95) || ((97 <=? c) && (c <=? 122)).

Definition isWord (c : option codeUnit) : bool :=
  match c with Some x => isWordChar x | None => false end.

(** Canonicalize of the [i] flag without [u]: upper case.  Every
    pattern character of the source is ASCII, and no code unit outside
    ASCII canonicalizes into ASCII, so only the ASCII letters fold. *)
Definition canonicalize (c : codeUnit) : codeUnit :=
  if (97 <=? c) && (c <=? 122) then c - 32 else c.

Definition charMatches (ignoreCase : bool) (c ch : codeUnit) : bool :=
  if ignoreCase then canonicalize c =? canonicalize ch else c =? ch.

(** The text between two positions of one input. *)
Definition consumed (x y : pos) : jsstring :=
  firstn (length (rest x) - length (rest y)) (rest x).

(** [p*], greedy: one more code unit first, the continuation after. *)
Fixpoint star {R} (p : codeUnit -> bool)
    (k : pos -> option R) (b : option codeUnit) (s : jsstring)
  : option R :=
  match s with
  | c :: s' =>
      if p c then
        match star p k (Some c) s' with
        | Some r => Some r
        | None => k (Pos b s)
        end
      else k (Pos b s)
  | [] => k (Pos b s)
  end.

Fixpoint run (ignoreCase : bool) (r : regex) (x : pos) (cs : captures)
    (k : pos -> captures -> option captures) : option captures :=
  match r with
  | Empty => k x cs
  | WordBoundary =>
      if xorb (isWord (before x)) (isWord (hd_error (rest x)))
      then k x cs else None
  | Char c =>
      match rest x with
      | ch :: s' =>
          if charMatches ignoreCase c ch then k (Pos (Some ch) s') cs
          else None
      | [] => None
      end
  | Class p =>
      match rest x with
      | ch :: s' => if p ch then k (Pos (Some ch) s') cs else None
      | [] => None
      end
  | ClassPlus p =>
      match rest x with
      | ch :: s' =>
          if p ch then star p (fun y => k y cs) (Some ch) s' else None
      | [] => None
      end
  | Seq r1 r2 =>
      run ignoreCase r1 x cs (fun y cs' => run ignoreCase r2 y cs' k)
  | Alt r1 r2 =>
      match run ignoreCase r1 x cs k with
      | Some res => Some res
      | None => run ignoreCase r2 x cs k
      end
  | Group n r1 =>
      run ignoreCase r1 x cs
        (fun y cs' => k y ((n, consumed x y) :: cs'))
  end.

(** The search of [exec] without the [g] flag: the first start index,
    from 0 up to the length of the input, at which the pattern
    matches. *)
Fixpoint searchFrom (ignoreCase : bool) (r : regex)
    (b : option codeUnit) (s : jsstring) : option captures :=
  match run ignoreCase r (Pos b s) [] (fun _ cs => Some cs) with
  | Some cs => Some cs
  | None =>
      match s with
      | [] => None
      | c :: s' => searchFrom ignoreCase r (Some c) s'
      end
  end.

(** [regex.exec(s)] / [s.match(regex)]. *)
Definition exec (ignoreCase : bool) (r : regex) (s : jsstring)
  : option captures :=
  searchFrom ignoreCase r None s.

(** [regex.test(s)]. *)
Definition test (ignoreCase : bool) (r : regex) (s : jsstring) : bool :=
  match exec ignoreCase r s with Some _ => true | None => false end.

(** Whether every match of the pattern takes at least one code unit. *)
Fixpoint consumes (r : regex) : bool :=
  match r with
  | Empty | WordBoundary => false
  | Char _ | Class _ | ClassPlus _ => true
  | Seq r1 r2 => consumes r1 || consumes r2
  | Alt r1 r2 => consumes r1 && consumes r2
  | Group _ r1 => consumes r1
  end.

(** What holds of the captures after a match of [r] when [Q] held
    before it. *)
Fixpoint post (r : regex) (Q : captures -> Prop) : captures -> Prop :=
  match r with
  | Empty | WordBoundary | Char _ | Class _ | ClassPlus _ => Q
  | Seq r1 r2 => post r2 (post r1 Q)
  | Alt r1 r2 => fun cs => post r1 Q cs \/ post r2 Q cs
  | Group n r1 =>
      fun cs => exists t cs0,
          cs = (n, t) :: cs0 /\ post r1 Q cs0
          /\ (consumes r1 = true -> t <> [])
  end.

End RegExp.
Import RegExp.

(* ================================================================== *)
(** ** The extension / MIME table *)
(* ================================================================== *)

(** [imageExtensionToMime]: a [Map] keeps its entries in insertion
    order. *)
Definition imageExtensionToMime : list (jsstring * jsstring) :=
  [ (js ".gif", js "image/gif");
    (js ".ico", js "image/x-icon");
    (js ".jpeg", js "image/jpeg");
    (js ".jpg", js "image/jpeg");
    (js ".png", js "image/png");
    (js ".svg", js "image/svg+xml");
    (js ".webp", js "image/webp") ].

(** [Map.prototype.get]. *)
Fixpoint mapGet (m : list (jsstring * jsstring)) (key : jsstring)
  : option jsstring :=
  match m with
  | [] => None
  | (k, v) :: m' => if streq k key then Some v else mapGet m' key
  end.

Definition imageExtensions : list jsstring := map fst imageExtensionToMime.

Definition imageMimeTypes : list jsstring := map snd imageExtensionToMime.

Definition getImageExtensionForMimeType (mimeType : jsstring)
  : option jsstring :=
  let index := indexOf imageMimeTypes mimeType in
  if (index >? -1)%Z then Js.index imageExtensions index else None.

(* ================================================================== *)
(** ** Name and type of an image *)
(* ================================================================== *)

(** The part of a [URL] object the code reads: [pathname], and the
    entries of [searchParams] in order. *)
Record URL := mkURL {
  pathname : jsstring;
  searchParams : list (jsstring * jsstring)
}.

(** [url.searchParams.keys()]: one key per entry, duplicates kept. *)
Definition searchParams_keys (url : URL) : list jsstring :=
  map fst (searchParams url).

(** [url.searchParams.get(key)]: the value of the first entry with that
    key. *)
Definition searchParams_get (url : URL) (key : jsstring)
  : option jsstring :=
  mapGet (searchParams url) key.

(** [/\bcontent-disposition\b/i] *)
Definition contentDispositionKey : regex :=
  Seq WordBoundary (Seq (lit (js "content-disposition")) WordBoundary).

(** [/\bcontent-type\b/i] *)
Definition contentTypeKey : regex :=
  Seq WordBoundary (Seq (lit (js "content-type")) WordBoundary).

Definition notChar (c : codeUnit) : codeUnit -> bool :=
  fun ch => negb (ch =? c).

(** [/\bfilename=(?:Q([^Q]+)Q|([^;]+))/i], where Q stands for the double
    quote, code unit 34; code unit 59 is the semicolon. *)
Definition fileNameRe : regex :=
  Seq WordBoundary
    (Seq (lit (js "filename="))
       (Alt (Seq (Char 34) (Seq (Group 1 (ClassPlus (notChar 34))) (Char 34)))
            (Group 2 (ClassPlus (notChar 59))))).

(** The class [[\w-+]]: a word character, [-] or [+]. *)
Definition mimeChar (ch : codeUnit) : bool :=
  isWordChar ch || (ch =? 45) || (ch =? 43).

(** [/\b(image\/[\w-+]+)/i] *)
Definition mimeTypeRe : regex :=
  Seq WordBoundary (Group 1 (Seq (lit (js "image/")) (ClassPlus mimeChar))).

(** The variables the callback of [find] closes over. *)
Record scanState := ScanState {
  fileName : option jsstring;
  mimeType : option jsstring
}.

Section Resolver.

(** The identifier [nanoid()] returns; it is called at most once in a
    call of [getImageNameAndType]. *)
Variable nanoid : jsstring.

(** One turn of the loop over [url.searchParams.keys()]. *)
Definition paramStep (url : URL) (ext : jsstring)
    (acc : scanState * bool) (key : jsstring) : scanState * bool :=
  let (st, foundInSearchParams) := acc in
  let value := nullish (searchParams_get url key) [] in
  if negb (truthy (fileName st)) && test true contentDispositionKey key
  then
    match exec true fileNameRe value with
    | Some fileNameMatch =>
        (ScanState
           (Some (nullish (nullishOpt (capture 1 fileNameMatch)
                                      (capture 2 fileNameMatch)) []))
           (mimeType st),
         foundInSearchParams)
    | None => acc
    end
  else if negb (truthy (mimeType st)) && test true contentTypeKey key
  then
    match exec true mimeTypeRe value with
    | Some mimeTypeMatch =>
        match capture 1 mimeTypeMatch with
        | Some m => (ScanState (fileName st) (Some m),
                     foundInSearchParams)
        | None => acc
        end
    | None => acc
    end
  else if negb foundInSearchParams && endsWith value ext
  then (st, true)
  else acc.

(** The loop over the search params in a call of the callback. *)
Definition paramLoop (url : URL) (ext : jsstring) (st : scanState)
  : scanState * bool :=
  fold_left (paramStep url ext) (searchParams_keys url) (st, false).

(** The callback given to [imageExtensions.find]: its result and the
    variables it leaves behind. *)
Definition extensionApplies (url : URL) (basename : jsstring)
    (ext : jsstring) (st : scanState) : bool * scanState :=
  let (st1, foundInSearchParams) := paramLoop url ext st in
  if endsWith basename ext then
    (true,
     if negb (optEndsWith (fileName st1) ext)
     then ScanState (Some basename) (mimeType st1)
     else st1)
  else
    (foundInSearchParams
     || optEndsWith (fileName st1) ext
     || strictEq (mimeType st1) (mapGet imageExtensionToMime ext),
     st1).

(** [Array.prototype.find] with a callback that updates variables: the
    first element the callback accepts, and the variables after the
    last call. *)
Fixpoint findWith (f : jsstring -> scanState -> bool * scanState)
    (l : list jsstring) (st : scanState) : option jsstring * scanState :=
  match l with
  | [] => (None, st)
  | ext :: l' =>
      let (found, st') := f ext st in
      if found then (Some ext, st') else findWith f l' st'
  end.

(** [url.pathname.split('/').at(-1) ?? '']; code unit 47 is the slash. *)
Definition basenameOf (url : URL) : jsstring :=
  nullish (at_last (split 47 (pathname url))) [].

(** The scan of the structured branch: the extension found, if any, and
    the file name and MIME type captured on the way. *)
Definition scanExtension (url : URL) : option jsstring * scanState :=
  findWith (extensionApplies url (basenameOf url)) imageExtensions
    (ScanState None None).

Definition getImageNameAndType (url : jsstring + URL)
    (defaultExtension : option jsstring)
  : option jsstring * option jsstring :=
  match url with
  | inl url =>
      let extension :=
        nullishOpt (find (fun ext => endsWith url ext) imageExtensions)
                   defaultExtension in
      if truthy extension
      then (Some url, mapGet imageExtensionToMime (nullish extension []))
      else (None, None)
  | inr url =>
      let (found, st) := scanExtension url in
      let extension := nullishOpt found defaultExtension in
      (* Trust the extension over the mime type. *)
      let impliedMimeType :=
        if truthy extension
        then mapGet imageExtensionToMime (nullish extension [])
        else extension in
      let mimeType :=
        if truthy impliedMimeType then impliedMimeType else mimeType st in
      if truthy mimeType
      then (Some (nullish (fileName st)
                    (nanoid ++ js "." ++ template extension)),
            mimeType)
      else (None, None)
  end.

End Resolver.

(** [getImageName] and [getImageType] take a [File], a [URL] or (the
    latter) a string. *)
Module File.
(** The part of a [File] the code reads. *)
Record t := Build { name : jsstring; type : jsstring }.
End File.

Inductive source :=
| OfFile (file : File.t)
| OfURL (url : URL)
| OfString (url : jsstring).

Section Wrappers.

Variable nanoid : jsstring.

Definition getImageName (file : File.t + URL) : option jsstring :=
  match file with
  | inl file => Some (File.name file)
  | inr url => fst (getImageNameAndType nanoid (inr url) None)
  end.

Definition getImageType (file : source) : option jsstring :=
  match file with
  | OfFile file => Some (File.type file)
  | OfURL url => snd (getImageNameAndType nanoid (inr url) None)
  | OfString url => snd (getImageNameAndType nanoid (inl url) None)
  end.

End Wrappers.

(* ================================================================== *)
(** ** SHA-256 (FIPS 180-4), the digest of [crypto.subtle] *)
(* ================================================================== *)

Module SHA256.

(** Words are 32-bit, kept in [N] below [2^32]. *)
Definition wrap (x : N) : N := x mod 4294967296.
Definition add (x y : N) : N := wrap (x + y).
Definition rotr (n x : N) : N :=
  N.lor (N.shiftr x n) (wrap (N.shiftl x (32 - n))).
Definition complement (x : N) : N := N.lxor x 4294967295.

Definition Ch (x y z : N) : N :=
  N.lxor (N.land x y) (N.land (complement x) z).
Definition Maj (x y z : N) : N :=
  N.lxor (N.lxor (N.land x y) (N.land x z)) (N.land y z).
Definition Sum0 (x : N) : N :=
  N.lxor (N.lxor (rotr 2 x) (rotr 13 x)) (rotr 22 x).
Definition Sum1 (x : N) : N :=
  N.lxor (N.lxor (rotr 6 x) (rotr 11 x)) (rotr 25 x).
Definition sig0 (x : N) : N :=
  N.lxor (N.lxor (rotr 7 x) (rotr 18 x)) (N.shiftr x 3).
Definition sig1 (x : N) : N :=
  N.lxor (N.lxor (rotr 17 x) (rotr 19 x)) (N.shiftr x 10).

(** The round constants, four to a line. *)
Definition roundConstants : list N :=
  [ 0x428A2F98; 0x71374491; 0xB5C0FBCF; 0xE9B5DBA5 ] ++
  [ 0x3956C25B; 0x59F111F1; 0x923F82A4; 0xAB1C5ED5 ] ++
  [ 0xD807AA98; 0x12835B01; 0x243185BE; 0x550C7DC3 ] ++
  [ 0x72BE5D74; 0x80DEB1FE; 0x9BDC06A7; 0xC19BF174 ] ++
  [ 0xE49B69C1; 0xEFBE4786; 0x0FC19DC6; 0x240CA1CC ] ++
  [ 0x2DE92C6F; 0x4A7484AA; 0x5CB0A9DC; 0x76F988DA ] ++
  [ 0x983E5152; 0xA831C66D; 0xB00327C8; 0xBF597FC7 ] ++
  [ 0xC6E00BF3; 0xD5A79147; 0x06CA6351; 0x14292967 ] ++
  [ 0x27B70A85; 0x2E1B2138; 0x4D2C6DFC; 0x53380D13 ] ++
  [ 0x650A7354; 0x766A0ABB; 0x81C2C92E; 0x92722C85 ] ++
  [ 0xA2BFE8A1; 0xA81A664B; 0xC24B8B70; 0xC76C51A3 ] ++
  [ 0xD192E819; 0xD6990624; 0xF40E3585; 0x106AA070 ] ++
  [ 0x19A4C116; 0x1E376C08; 0x2748774C; 0x34B0BCB5 ] ++
  [ 0x391C0CB3; 0x4ED8AA4A; 0x5B9CCA4F; 0x682E6FF3 ] ++
  [ 0x748F82EE; 0x78A5636F; 0x84C87814; 0x8CC70208 ] ++
  [ 0x90BEFFFA; 0xA4506CEB; 0xBEF9A3F7; 0xC67178F2 ].

(** The eight working variables, also the running hash value. *)
Record vars := Vars { va : N; vb : N; vc : N; vd : N;
                      ve : N; vf : N; vg : N; vh : N }.

Definition initialHash : vars :=
  Vars 0x6A09E667 0xBB67AE85 0x3C6EF372 0xA54FF53A
       0x510E527F 0x9B05688C 0x1F83D9AB 0x5BE0CD19.

(** The [n]-byte big-endian form of [x]. *)
Fixpoint bigEndian (n : nat) (x : N) : list N :=
  match n with
  | O => []
  | S m => (x / 256 ^ N.of_nat m) mod 256 :: bigEndian m x
  end.

(** Padding: the bit 1, zeros up to 56 modulo 64 bytes, and the length
    in bits on 64 bits. *)
Definition padded (msg : list N) : list N :=
  let len := N.of_nat (length msg) in
  msg ++ 128 :: repeat 0 (N.to_nat ((119 - len mod 64) mod 64))
      ++ bigEndian 8 (8 * len).

Fixpoint toWords (bytes : list N) : list N :=
  match bytes with
  | b0 :: b1 :: b2 :: b3 :: bytes' =>
      (((b0 * 256 + b1) * 256 + b2) * 256 + b3) :: toWords bytes'
  | _ => []
  end.

(** The blocks of sixteen words of a padded message. *)
Definition blocks (ws : list N) : list (list N) :=
  map (fun i => firstn 16 (skipn (16 * i) ws)) (seq 0 (length ws / 16)).

(** The message schedule, latest word first: [n] more words after the
    ones in [w]. *)
Fixpoint extend (n : nat) (w : list N) : list N :=
  match n with
  | O => w
  | S m =>
      extend m
        (add (add (add (sig1 (nth 1 w 0)) (nth 6 w 0))
                  (sig0 (nth 14 w 0)))
             (nth 15 w 0) :: w)
  end.

Definition schedule (block : list N) : list N :=
  rev (extend 48 (rev block)).

Definition round (v : vars) (kw : N * N) : vars :=
  let (k, w) := kw in
  let t1 :=
    add (add (add (add (vh v) (Sum1 (ve v))) (Ch (ve v) (vf v) (vg v))) k)
        w in
  let t2 := add (Sum0 (va v)) (Maj (va v) (vb v) (vc v)) in
  Vars (add t1 t2) (va v) (vb v) (vc v)
       (add (vd v) t1) (ve v) (vf v) (vg v).

Definition compress (h : vars) (block : list N) : vars :=
  let v := fold_left round (combine roundConstants (schedule block)) h in
  Vars (add (va h) (va v)) (add (vb h) (vb v))
       (add (vc h) (vc v)) (add (vd h) (vd v))
       (add (ve h) (ve v)) (add (vf h) (vf v))
       (add (vg h) (vg v)) (add (vh h) (vh v)).

Definition byteOfN (n : N) : byte :=
  match Byte.of_N (n mod 256) with Some b => b | None => x00 end.

Definition wordBytes (x : N) : list byte :=
  map byteOfN (bigEndian 4 x).

Definition digest (data : list byte) : list byte :=
  let h :=
    fold_left compress (blocks (toWords (padded (map Byte.to_N data))))
      initialHash in
  wordBytes (va h) ++ wordBytes (vb h) ++ wordBytes (vc h)
  ++ wordBytes (vd h) ++ wordBytes (ve h) ++ wordBytes (vf h)
  ++ wordBytes (vg h) ++ wordBytes (vh h).

End SHA256.

(* ================================================================== *)
(** ** Digests in hexadecimal *)
(* ================================================================== *)

(** [TextEncoder.prototype.encode]: UTF-8 of a string of UTF-16 code
    units; a surrogate without its partner becomes U+FFFD. *)
Module TextEncoder.

Definition isHighSurrogate (c : codeUnit) : bool :=
  (0xD800 <=? c) && (c <=? 0xDBFF).
Definition isLowSurrogate (c : codeUnit) : bool :=
  (0xDC00 <=? c) && (c <=? 0xDFFF).

Definition encodeCodePoint (cp : N) : list byte :=
  map SHA256.byteOfN
    (if cp <? 0x80 then [cp]
     else if cp <? 0x800 then [0xC0 + cp / 64; 0x80 + cp mod 64]
     else if cp <? 0x10000 then
       [0xE0 + cp / 4096; 0x80 + (cp / 64) mod 64; 0x80 + cp mod 64]
     else
       [0xF0 + cp / 262144; 0x80 + (cp / 4096) mod 64;
        0x80 + (cp / 64) mod 64; 0x80 + cp mod 64]).

Definition replacement : list byte := encodeCodePoint 0xFFFD.

Fixpoint encode (s : jsstring) : list byte :=
  match s with
  | [] => []
  | c :: s' =>
      if isHighSurrogate c then
        match s' with
        | d :: s'' =>
            if isLowSurrogate d then
              encodeCodePoint
                (0x10000 + (c - 0xD800) * 0x400 + (d - 0xDC00))
              ++ encode s''
            else replacement ++ encode s'
        | [] => replacement
        end
      else if isLowSurrogate c then replacement ++ encode s'
      else encodeCodePoint c ++ encode s'
  end.

End TextEncoder.

(** A hexadecimal digit, lower case. *)
Definition hexDigit (d : N) : codeUnit :=
  if d <? 10 then 48 + d else 87 + d.

(** [Number.prototype.toString(16)] of a non-negative integer; [fuel]
    bounds the number of digits. *)
Fixpoint toRadix16 (fuel : nat) (n : N) : jsstring :=
  match fuel with
  | O => []
  | S fuel' =>
      if n <? 16 then [hexDigit n]
      else toRadix16 fuel' (n / 16) ++ [hexDigit (n mod 16)]
  end.

Definition toString16 (n : N) : jsstring :=
  toRadix16 (S (N.to_nat (N.log2 n))) n.

(** [bufferToHex]; the elements of a [Uint8Array] are bytes, and
    [join('')] concatenates. *)
Definition bufferToHex (buffer : list byte) : jsstring :=
  concat
    (map (fun byte => padStart 2 (js "0") (toString16 (Byte.to_N byte)))
       buffer).

(** ** Asynchronous functions

    An [async] function is run against the log of the platform calls made
    so far and settles: fulfilled with a value or rejected with a reason.
    [await] of a rejected promise rejects the function with the same
    reason. *)
Section Async.

(** The error a [FileReader] reports in [reader.error]. *)
Variable DOMException : Type.

(** How [reader.readAsArrayBuffer(file)] ends for each file: the [load]
    event with [reader.result], or the [error] event with
    [reader.error]. *)
Inductive readOutcome :=
| Load (result : list byte)
| Error (error : DOMException).

Variable fileReader : File.t -> readOutcome.

Inductive call :=
| ReadAsArrayBuffer (file : File.t)
| Digest (data : list byte).

Inductive settled (A : Type) :=
| Fulfilled (value : A)
| Rejected (reason : DOMException).
Arguments Fulfilled {A} value.
Arguments Rejected {A} reason.

Definition promise (A : Type) := list call -> settled A * list call.

Definition resolve {A} (a : A) : promise A := fun log => (Fulfilled a, log).

Definition await {A B} (p : promise A) (k : A -> promise B) : promise B :=
  fun log =>
    match p log with
    | (Fulfilled a, log') => k a log'
    | (Rejected e, log') => (Rejected e, log')
    end.

Notation "x <- 'await' p ;; k" := (await p (fun x => k))
  (at level 100, p at next level, right associativity).

(** [crypto.subtle.digest('SHA-256', data)]. *)
Definition subtle_digest (data : list byte) : promise (list byte) :=
  fun log => (Fulfilled (SHA256.digest data), log ++ [Digest data]).

Definition getSha256Hash (data : jsstring) : promise jsstring :=
  let dataBuffer := TextEncoder.encode data in
  hashBuffer <- await subtle_digest dataBuffer ;;
  resolve (bufferToHex hashBuffer).

(** The promise settles from the handler of the event the reader
    fires. *)
Definition readFileAsArrayBuffer (file : File.t) : promise (list byte) :=
  fun log =>
    (match fileReader file with
     | Load result => Fulfilled result
     | Error error => Rejected error
     end,
     log ++ [ReadAsArrayBuffer file]).

Definition getSha256HashOfFile (file : File.t) : promise jsstring :=
  arrayBuffer <- await readFileAsArrayBuffer file ;;
  hashBuffer <- await subtle_digest arrayBuffer ;;
  resolve (bufferToHex hashBuffer).

End Async.

Arguments Load {DOMException} result.
Arguments Error {DOMException} error.
Arguments Fulfilled {DOMException A} value.
Arguments Rejected {DOMException A} reason.
Arguments getSha256Hash {DOMException} data _.

(* ================================================================== *)
(** ** From an uploading record to an asset *)
(* ================================================================== *)

(** The numbers the asset builder writes: [Number.NaN] and integer
    literals. *)
Inductive number :=
| NaN
| Integer (z : Z).

(** Modelled from the spec: the declaration of [UploadingFileData]
    ([~/shared/nano-states]) is not among the sources.  A record with a
    discriminator [source], ['file'] or ['url'], selecting a [File] or a
    URL string, an asset identifier and an object URL. *)
Inductive UploadingFileData :=
| FromFile (assetId objectURL : jsstring) (file : File.t)
| FromUrl (assetId objectURL : jsstring) (url : jsstring).

Definition assetId (fileData : UploadingFileData) : jsstring :=
  match fileData with
  | FromFile a _ _ | FromUrl a _ _ => a
  end.

Definition objectURL (fileData : UploadingFileData) : jsstring :=
  match fileData with
  | FromFile _ o _ | FromUrl _ o _ => o
  end.

(** Modelled from the spec: the declarations of [Asset], [ImageAsset] and
    [FontAsset] ([@webstudio-is/sdk]) are not among the sources.  The
    fields are the ones the builder writes; [format] of an image is
    [undefined] when the MIME type has no second segment. *)
Module Asset.

Inductive kind := image | font.

Inductive metadata :=
| ImageMeta (width height : number)
| FontMeta (family style : jsstring) (weight : number).

Record t := Build {
  id : jsstring;
  name : jsstring;
  format : option jsstring;
  type : kind;
  description : jsstring;
  createdAt : jsstring;
  projectId : jsstring;
  size : number;
  meta : metadata
}.

End Asset.

Section AssetBuilder.

Variable nanoid : jsstring.

(** [new URL(input)]: the parsed URL, or [None] when the constructor
    throws a [TypeError]. *)
Variable parseURL : jsstring -> option URL.

(** [fileData.source === 'file' ? fileData.file : new URL(fileData.url)] *)
Definition uploadSource (fileData : UploadingFileData) : option source :=
  match fileData with
  | FromFile _ _ file => Some (OfFile file)
  | FromUrl _ _ url => option_map OfURL (parseURL url)
  end.

(** The result is [None] when [new URL] throws. *)
Definition uploadingFileDataToAsset (fileData : UploadingFileData)
  : option Asset.t :=
  match uploadSource fileData with
  | None => None
  | Some file =>
      let mimeType :=
        nullish (getImageType nanoid file) (js "image/png") in
      let format := nth_error (split 47 mimeType) 1 in
      if startsWith mimeType (js "image/") then
        Some (Asset.Build (assetId fileData) (objectURL fileData)
                format Asset.image [] [] [] (Integer 0)
                (Asset.ImageMeta NaN NaN))
      else
        Some (Asset.Build (assetId fileData) (objectURL fileData)
                (Some (js "woff2")) Asset.font [] [] [] (Integer 0)
                (Asset.FontMeta (js "system") (js "normal") (Integer 400)))
  end.

End AssetBuilder.

(* ================================================================== *)
(** ** Notions the statements use *)
(* ================================================================== *)

(** The file name captured from a content-disposition param: what the
    first call of the callback, the one for [.gif], has in [fileName]
    after its loop over the search params, before it looks at the
    basename. *)
Definition capturedFileName (url : URL) : option jsstring :=
  fileName (fst (paramLoop url (js ".gif") (ScanState None None))).

(** Whether some search param has a key matching the content-type pattern
    and a value holding an [image/...] token. *)
Definition hasContentTypeHint (url : URL) : bool :=
  existsb
    (fun key =>
       test true contentTypeKey key
       && match exec true mimeTypeRe (nullish (searchParams_get url key) [])
          with Some _ => true | None => false end)
    (searchParams_keys url).

(** [0-9a-f]. *)
Definition isLowerHexDigit (c : codeUnit) : bool :=
  ((48 <=? c) && (c <=? 57)) || ((97 <=? c) && (c <=? 102)).

(** Whether [p] starts [s]. *)
Fixpoint isPrefix (p s : jsstring) : bool :=
  match p, s with
  | [], _ => true
  | x :: p', y :: s' => (x =? y) && isPrefix p' s'
  | _ :: _, [] => false
  end.

(** The two hexadecimal digits of a byte. *)
Definition byteHex (b : byte) : jsstring :=
  [hexDigit (Byte.to_N b / 16); hexDigit (Byte.to_N b mod 16)].

(* ================================================================== *)
(** ** Notions the further statements use *)
(* ================================================================== *)

(** The value of a hexadecimal digit, the byte two digits spell, and the
    bytes a string of digits spells: the way back from [bufferToHex]. *)
Definition hexValue (c : codeUnit) : N :=
  if c <? 58 then c - 48 else c - 87.

Definition byteOfHex (hi lo : codeUnit) : byte :=
  SHA256.byteOfN (16 * hexValue hi + hexValue lo).

Fixpoint hexToBuffer (s : jsstring) : list byte :=
  match s with
  | hi :: lo :: s' => byteOfHex hi lo :: hexToBuffer s'
  | _ => []
  end.

(** The code unit before the position reached by reading [t] from a
    position that has [b] before it. *)
Definition advance (b : option codeUnit) (t : jsstring)
  : option codeUnit :=
  fold_left (fun _ c => Some c) t b.

(** Equality of two strings up to the case of the ASCII letters, as the
    [i] flag compares a literal of the pattern with the input. *)
Fixpoint equalsIgnoreCase (a b : jsstring) : bool :=
  match a, b with
  | [], [] => true
  | x :: a', y :: b' => charMatches true x y && equalsIgnoreCase a' b'
  | _, _ => false
  end.

(** [matchPath i r x cs y cs']: the pattern [r] can read the input from
    position [x] to position [y], turning the captures [cs] into [cs'].
    This is what a match is, without the order in which the matcher
    tries the choices. *)
Inductive matchPath (i : bool)
  : regex -> pos -> captures -> pos -> captures -> Prop :=
| path_Empty x cs : matchPath i Empty x cs x cs
| path_WordBoundary x cs :
    xorb (isWord (before x)) (isWord (hd_error (rest x))) = true ->
    matchPath i WordBoundary x cs x cs
| path_Char c b ch s cs :
    charMatches i c ch = true ->
    matchPath i (Char c) (Pos b (ch :: s)) cs (Pos (Some ch) s) cs
| path_Class p b ch s cs :
    p ch = true ->
    matchPath i (Class p) (Pos b (ch :: s)) cs (Pos (Some ch) s) cs
| path_ClassPlus p b t s cs :
    t <> [] -> forallb p t = true ->
    matchPath i (ClassPlus p) (Pos b (t ++ s)) cs (Pos (advance b t) s) cs
| path_Seq r1 r2 x cs y cs1 z cs2 :
    matchPath i r1 x cs y cs1 -> matchPath i r2 y cs1 z cs2 ->
    matchPath i (Seq r1 r2) x cs z cs2
| path_Alt_left r1 r2 x cs y cs' :
    matchPath i r1 x cs y cs' -> matchPath i (Alt r1 r2) x cs y cs'
| path_Alt_right r1 r2 x cs y cs' :
    matchPath i r2 x cs y cs' -> matchPath i (Alt r1 r2) x cs y cs'
| path_Group n r x cs y cs' :
    matchPath i r x cs y cs' ->
    matchPath i (Group n r) x cs y ((n, consumed x y) :: cs').

(** The word [w] stands in [key] as a whole word, in any case: no word
    character before it and none after it. *)
Definition occursAsWord (w key : jsstring) : Prop :=
  exists p u s,
    key = p ++ u ++ s
    /\ equalsIgnoreCase w u = true
    /\ isWord (advance None p) = false
    /\ isWord (hd_error s) = false.

(** The shape of a MIME type the content-type pattern captures: image/
    in any case, then one word character, [-] or [+] at least. *)
Definition isImageToken (h : jsstring) : Prop :=
  exists u t,
    h = u ++ t
    /\ equalsIgnoreCase (js "image/") u = true
    /\ t <> [] /\ forallb mimeChar t = true.

(** The shape of a file name the content-disposition pattern captures
    from [value]: it follows filename= (in any case, at a word boundary),
    either between double quotes and free of them, or bare, free of
    semicolons and running up to the next semicolon or to the end; code
    unit 34 is the double quote, 59 the semicolon. *)
Definition isFileNameOf (value f : jsstring) : Prop :=
  exists p u s,
    equalsIgnoreCase (js "filename=") u = true
    /\ isWord (advance None p) = false
    /\ f <> []
    /\ ((value = p ++ u ++ [34] ++ f ++ [34] ++ s /\ ~ In 34 f)
        \/ (value = p ++ u ++ f ++ s /\ ~ In 59 f
            /\ (s = [] \/ hd_error s = Some 59))).

(** An image token that stands in [value] at a word boundary and runs
    up to the end of the value or to a code unit that is no word
    character, [-] or [+]. *)
Definition isImageTokenOf (value h : jsstring) : Prop :=
  exists p u t s,
    value = p ++ u ++ t ++ s
    /\ h = u ++ t
    /\ equalsIgnoreCase (js "image/") u = true
    /\ isWord (advance None p) = false
    /\ t <> [] /\ forallb mimeChar t = true
    /\ match s with c :: _ => mimeChar c = false | [] => True end.

(* ================================================================== *)
(** ** Strings *)
(* ================================================================== *)

Lemma streq_refl (a : jsstring) : streq a a = true.
Proof.
  induction a as [|x a IH]; simpl; [reflexivity|].
  now rewrite N.eqb_refl.
Qed.

Lemma streq_eq (a b : jsstring) : streq a b = true <-> a = b.
Proof.
  split.
  - revert b; induction a as [|x a IH]; intros [|y b]; simpl;
      try discriminate; [reflexivity|].
    intros H; apply andb_true_iff in H as [Hx Hs].
    apply N.eqb_eq in Hx; subst; f_equal; auto.
  - intros ->; apply streq_refl.
Qed.

Lemma isPrefix_iff (p s : jsstring) :
  isPrefix p s = true <-> exists r, s = p ++ r.
Proof.
  revert s; induction p as [|x p IH]; intros s; simpl.
  - split; [exists s; reflexivity | reflexivity].
  - destruct s as [|y s].
    + split; [discriminate | intros [r Hr]; discriminate].
    + rewrite andb_true_iff, N.eqb_eq, IH; split.
      * intros [-> [r ->]]; exists r; reflexivity.
      * intros [r Hr]; injection Hr as -> ->; split; eauto.
Qed.

Lemma endsWith_iff (s e : jsstring) :
  endsWith s e = true <-> exists q, s = q ++ e.
Proof.
  unfold endsWith; split.
  - destruct (Nat.ltb_spec (length s) (length e)); [discriminate|].
    intros Heq; apply streq_eq in Heq.
    exists (firstn (length s - length e) s).
    transitivity (firstn (length s - length e) s
                  ++ skipn (length s - length e) s);
      [symmetry; apply firstn_skipn | now rewrite Heq].
  - intros [q ->]; rewrite length_app.
    destruct (Nat.ltb_spec (length q + length e) (length e)); [lia|].
    replace (length q + length e - length e)%nat with (length q + 0)%nat
      by lia.
    rewrite skipn_app, Nat.add_0_r, skipn_all, Nat.sub_diag; simpl.
    apply streq_refl.
Qed.

Lemma endsWith_app (q e : jsstring) : endsWith (q ++ e) e = true.
Proof. apply endsWith_iff; eauto. Qed.

(** [endsWith] read from the last code unit backwards. *)
Lemma endsWith_rev (s e : jsstring) :
  endsWith s e = isPrefix (rev e) (rev s).
Proof.
  apply eq_true_iff_eq; rewrite endsWith_iff, isPrefix_iff; split.
  - intros [q ->]; exists (rev q); apply rev_app_distr.
  - intros [r Hr]; exists (rev r).
    rewrite <- (rev_involutive s), Hr, rev_app_distr, rev_involutive.
    reflexivity.
Qed.

Lemma startsWith_iff (s p : jsstring) :
  startsWith s p = true <-> exists r, s = p ++ r.
Proof.
  unfold startsWith; split.
  - destruct (Nat.ltb_spec (length s) (length p)); [discriminate|].
    intros Heq; apply streq_eq in Heq.
    exists (skipn (length p) s).
    transitivity (firstn (length p) s ++ skipn (length p) s);
      [symmetry; apply firstn_skipn | now rewrite Heq].
  - intros [r ->]; rewrite length_app.
    destruct (Nat.ltb_spec (length p + length r) (length p)); [lia|].
    rewrite firstn_app, Nat.sub_diag, firstn_all; simpl.
    rewrite app_nil_r; apply streq_refl.
Qed.

(** The first segment of a split ends at the first separator. *)
Lemma split_first (sep : codeUnit) (s : jsstring) :
  exists seg segs rest,
    split sep s = seg :: segs /\ s = seg ++ rest /\ ~ In sep seg
    /\ (rest = [] \/ hd_error rest = Some sep).
Proof.
  induction s as [|c s (seg & segs & rest & Hs & Heq & Hin & Hrest)]; simpl.
  - exists [], [], []; intuition.
  - destruct (N.eqb_spec c sep) as [->|Hc].
    + exists [], (split sep s), (sep :: s); simpl; intuition.
    + rewrite Hs; exists (c :: seg), segs, rest; simpl.
      rewrite Heq at 1; intuition.
Qed.

Lemma split_app_sep (sep : codeUnit) (p s : jsstring) :
  ~ In sep p -> split sep (p ++ sep :: s) = p :: split sep s.
Proof.
  induction p as [|c p IH]; simpl; intros Hin.
  - now rewrite N.eqb_refl.
  - destruct (N.eqb_spec c sep) as [->|_]; [tauto|].
    rewrite IH by tauto; reflexivity.
Qed.

(* ================================================================== *)
(** ** The matcher *)
(* ================================================================== *)

Lemma star_inv {R} (p : codeUnit -> bool) (k : pos -> option R)
    (s : jsstring) :
  forall b r, star p k b s = Some r ->
    exists y, k y = Some r /\ (length (rest y) <= length s)%nat.
Proof.
  induction s as [|c s IH]; simpl; intros b r H.
  - exists (Pos b []); auto.
  - destruct (p c).
    + destruct (star p k (Some c) s) as [r'|] eqn:Hs.
      * injection H as ->.
        destruct (IH _ _ Hs) as (y & Hy & Hlen); exists y; split; auto.
      * exists (Pos b (c :: s)); auto.
    + exists (Pos b (c :: s)); auto.
Qed.

Lemma consumed_nonempty (x y : pos) :
  (length (rest y) < length (rest x))%nat -> consumed x y <> [].
Proof.
  unfold consumed; intros Hlt Hnil.
  apply (f_equal (@length _)) in Hnil.
  rewrite length_firstn in Hnil; simpl in Hnil; lia.
Qed.

(** A successful run reaches its continuation, no further in the input
    than it started, with captures as [post] describes. *)
Lemma run_post (i : bool) (r : regex) :
  forall (Q : captures -> Prop) x cs k res,
    run i r x cs k = Some res -> Q cs ->
    exists y cs',
      k y cs' = Some res /\ post r Q cs'
      /\ (length (rest y) <= length (rest x))%nat
      /\ (consumes r = true -> (length (rest y) < length (rest x))%nat).
Proof.
  induction r as [| |c|p|p|r1 IH1 r2 IH2|r1 IH1 r2 IH2|n r1 IH1];
    simpl; intros Q x cs k res H HQ.
  - exists x, cs; repeat split; auto; discriminate.
  - destruct (xorb _ _); [|discriminate].
    exists x, cs; repeat split; auto; discriminate.
  - destruct x as [b [|ch s]]; simpl in *; [discriminate|].
    destruct (charMatches i c ch); [|discriminate].
    exists (Pos (Some ch) s), cs; simpl; repeat split; auto.
  - destruct x as [b [|ch s]]; simpl in *; [discriminate|].
    destruct (p ch); [|discriminate].
    exists (Pos (Some ch) s), cs; simpl; repeat split; auto.
  - destruct x as [b [|ch s]]; simpl in *; [discriminate|].
    destruct (p ch); [|discriminate].
    apply star_inv in H as (y & Hy & Hlen).
    exists y, cs; repeat split; auto; lia.
  - destruct (IH1 Q _ _ _ _ H HQ) as (y1 & cs1 & H1 & HQ1 & Hle1 & Hlt1).
    destruct (IH2 _ _ _ _ _ H1 HQ1) as (y2 & cs2 & H2 & HQ2 & Hle2 & Hlt2).
    exists y2, cs2; repeat split; auto; [lia|].
    intros Hc; apply orb_true_iff in Hc as [Hc|Hc];
      [specialize (Hlt1 Hc) | specialize (Hlt2 Hc)]; lia.
  - destruct (run i r1 x cs k) as [res1|] eqn:Hr1.
    + injection H as ->.
      destruct (IH1 Q _ _ _ _ Hr1 HQ) as (y & cs' & Hk & HQ' & Hle & Hlt).
      exists y, cs'; repeat split; auto.
      intros Hc; apply andb_true_iff in Hc as [Hc _]; auto.
    + destruct (IH2 Q _ _ _ _ H HQ) as (y & cs' & Hk & HQ' & Hle & Hlt).
      exists y, cs'; repeat split; auto.
      intros Hc; apply andb_true_iff in Hc as [_ Hc]; auto.
  - destruct (IH1 Q _ _ _ _ H HQ) as (y & cs' & Hk & HQ' & Hle & Hlt).
    exists y, ((n, consumed x y) :: cs'); repeat split; auto.
    exists (consumed x y), cs'; repeat split; auto.
    intros Hc; apply consumed_nonempty; auto.
Qed.

Lemma searchFrom_post (i : bool) (r : regex) (s : jsstring) :
  forall b cs, searchFrom i r b s = Some cs -> post r (fun c => c = []) cs.
Proof.
  induction s as [|c s IH]; simpl; intros b cs H.
  - destruct (run i r (Pos b []) [] _) as [cs'|] eqn:Hr; [|discriminate].
    injection H as ->.
    apply run_post with (Q := fun c => c = []) in Hr
      as (y & cs' & Hk & HQ & _); auto.
    now injection Hk as ->.
  - destruct (run i r (Pos b (c :: s)) [] _) as [cs'|] eqn:Hr.
    + injection H as ->.
      apply run_post with (Q := fun c => c = []) in Hr
        as (y & cs' & Hk & HQ & _); auto.
      now injection Hk as ->.
    + eauto.
Qed.

Lemma exec_post (i : bool) (r : regex) (s : jsstring) (cs : captures) :
  exec i r s = Some cs -> post r (fun c => c = []) cs.
Proof. apply searchFrom_post. Qed.

(** A match of the file name pattern gives a name that is not empty. *)
Lemma fileNameMatch_nonempty (value : jsstring) (cs : captures) :
  exec true fileNameRe value = Some cs ->
  nullish (nullishOpt (capture 1 cs) (capture 2 cs)) [] <> [].
Proof.
  intros H; apply exec_post in H; simpl in H.
  destruct H as [(t & cs0 & -> & -> & Ht) | (t & cs0 & -> & -> & Ht)];
    simpl; auto.
Qed.

(** A match of the MIME type pattern captures a token that is not
    empty. *)
Lemma mimeTypeMatch_nonempty (value : jsstring) (cs : captures) :
  exec true mimeTypeRe value = Some cs ->
  exists m, capture 1 cs = Some m /\ m <> [].
Proof.
  intros H; apply exec_post in H; simpl in H.
  destruct H as (t & cs0 & -> & -> & Ht); simpl; eauto.
Qed.

(* ================================================================== *)
(** ** The table *)
(* ================================================================== *)

Lemma table_entry (e : jsstring) :
  In e imageExtensions ->
  exists m, mapGet imageExtensionToMime e = Some m
            /\ In (e, m) imageExtensionToMime
            /\ truthy (Some e) = true /\ truthy (Some m) = true.
Proof.
  intros H; cbv in H.
  repeat (destruct H as [<-|H]); try contradiction;
    eexists; (split; [vm_compute; reflexivity|]);
    (split; [cbv; tauto | split; reflexivity]).
Qed.

Lemma table_functional (e m : jsstring) :
  In (e, m) imageExtensionToMime ->
  In e imageExtensions /\ mapGet imageExtensionToMime e = Some m.
Proof.
  intros H; split; [apply (in_map fst) in H; exact H|].
  cbv in H.
  repeat (destruct H as [H|H]); try contradiction;
    injection H as <- <-; reflexivity.
Qed.

(** No extension of the table ends another one. *)
Lemma extension_suffix_unique (q e e' : jsstring) :
  In e imageExtensions -> In e' imageExtensions ->
  endsWith (q ++ e) e' = true -> e' = e.
Proof.
  intros He He'; rewrite endsWith_rev, rev_app_distr.
  cbv in He, He'.
  repeat (destruct He as [<-|He]); try contradiction;
    repeat (destruct He' as [<-|He']); try contradiction;
    cbn; try reflexivity; discriminate.
Qed.

(* ================================================================== *)
(** ** The scan of the search params *)
(* ================================================================== *)

Section Scan.

Variable url : URL.

Lemma paramStep_fileName_other ext acc key :
  negb (truthy (fileName (fst acc)))
  && test true contentDispositionKey key = false ->
  fileName (fst (paramStep url ext acc key)) = fileName (fst acc).
Proof.
  destruct acc as [st found]; unfold paramStep; simpl; intros ->.
  repeat match goal with
         | |- context [if ?c then _ else _] => destruct c
         | |- context [match ?c with Some _ => _ | None => _ end] =>
             destruct c
         end; reflexivity.
Qed.

Lemma paramStep_fileName_keep ext acc key :
  truthy (fileName (fst acc)) = true ->
  fileName (fst (paramStep url ext acc key)) = fileName (fst acc).
Proof.
  intros H; apply paramStep_fileName_other; now rewrite H.
Qed.

Lemma fold_fileName_keep ext keys : forall acc,
  truthy (fileName (fst acc)) = true ->
  fileName (fst (fold_left (paramStep url ext) keys acc))
  = fileName (fst acc).
Proof.
  induction keys as [|key keys IH]; simpl; intros acc H; [reflexivity|].
  rewrite IH; rewrite paramStep_fileName_keep; auto.
Qed.

(** Whether a file name is captured at a key does not depend on the
    extension, the MIME type or the flag. *)
Lemma paramStep_fileName_indep ext1 ext2 acc1 acc2 key :
  fileName (fst acc1) = None -> fileName (fst acc2) = None ->
  fileName (fst (paramStep url ext1 acc1 key))
  = fileName (fst (paramStep url ext2 acc2 key))
  /\ (fileName (fst (paramStep url ext1 acc1 key)) = None
      \/ truthy (fileName (fst (paramStep url ext1 acc1 key))) = true).
Proof.
  intros H1 H2.
  destruct (test true contentDispositionKey key) eqn:Hcd.
  - destruct acc1 as [st1 f1], acc2 as [st2 f2]; unfold paramStep.
    simpl in *; rewrite H1, H2, Hcd; simpl.
    destruct (exec true fileNameRe _) as [cs|] eqn:Hm; simpl.
    + split; [reflexivity|right].
      apply fileNameMatch_nonempty in Hm.
      destruct (nullish _ _); [congruence | reflexivity].
    + rewrite H1, H2; auto.
  - rewrite !paramStep_fileName_other
      by (rewrite Hcd; apply andb_false_r).
    rewrite H1, H2; auto.
Qed.

Lemma fold_fileName_indep ext1 ext2 keys : forall acc1 acc2,
  fileName (fst acc1) = None -> fileName (fst acc2) = None ->
  fileName (fst (fold_left (paramStep url ext1) keys acc1))
  = fileName (fst (fold_left (paramStep url ext2) keys acc2))
  /\ (fileName (fst (fold_left (paramStep url ext1) keys acc1)) = None
      \/ truthy (fileName (fst (fold_left (paramStep url ext1) keys acc1)))
         = true).
Proof.
  induction keys as [|key keys IH]; simpl; intros acc1 acc2 H1 H2.
  - rewrite H1, H2; auto.
  - destruct (paramStep_fileName_indep ext1 ext2 acc1 acc2 key H1 H2)
      as [Heq [Hnone|Htruthy]].
    + apply IH; congruence.
    + rewrite !fold_fileName_keep; auto; congruence.
Qed.

Lemma capturedFileName_ok :
  capturedFileName url = None \/ truthy (capturedFileName url) = true.
Proof.
  unfold capturedFileName, paramLoop.
  apply (fold_fileName_indep (js ".gif") (js ".gif") (searchParams_keys url)
           (ScanState None None, false) (ScanState None None, false));
    reflexivity.
Qed.

(** After its loop over the search params, every call of the callback
    has the captured file name in [fileName]. *)
Lemma paramLoop_fileName ext st :
  fileName st = None \/ fileName st = capturedFileName url ->
  fileName (fst (paramLoop url ext st)) = capturedFileName url.
Proof.
  assert (Hnone : fileName st = None ->
                  fileName (fst (paramLoop url ext st))
                  = capturedFileName url).
  { intros H; unfold capturedFileName, paramLoop.
    apply fold_fileName_indep; auto. }
  intros [H|H]; auto.
  destruct capturedFileName_ok as [Hc|Hc]; [apply Hnone; congruence|].
  unfold paramLoop; rewrite fold_fileName_keep; simpl; congruence.
Qed.

End Scan.

Section Find.

Variable url : URL.
Variable basename : jsstring.

Ltac step_cases :=
  repeat match goal with
         | |- context [if ?c then _ else _] => destruct c
         | |- context [match ?c with Some _ => _ | None => _ end] =>
             destruct c
         end.

(** A captured MIME type is never the empty string. *)
Lemma paramStep_mimeType_ok ext acc key :
  mimeType (fst acc) = None \/ truthy (mimeType (fst acc)) = true ->
  mimeType (fst (paramStep url ext acc key)) = None
  \/ truthy (mimeType (fst (paramStep url ext acc key))) = true.
Proof.
  destruct acc as [st found]; unfold paramStep; simpl; intros H.
  destruct (negb (truthy (fileName st)) && _);
    [destruct (exec true fileNameRe _); exact H|].
  destruct (negb (truthy (mimeType st)) && _).
  - destruct (exec true mimeTypeRe _) as [cs|] eqn:Hm; [|exact H].
    apply mimeTypeMatch_nonempty in Hm as (m & -> & Hne); simpl.
    right; destruct m; [congruence | reflexivity].
  - step_cases; exact H.
Qed.

Lemma fold_mimeType_ok ext keys : forall acc,
  mimeType (fst acc) = None \/ truthy (mimeType (fst acc)) = true ->
  mimeType (fst (fold_left (paramStep url ext) keys acc)) = None
  \/ truthy (mimeType (fst (fold_left (paramStep url ext) keys acc)))
     = true.
Proof.
  induction keys as [|key keys IH]; simpl; intros acc H; [exact H|].
  apply IH, paramStep_mimeType_ok, H.
Qed.

(** Without a content-type param holding an image token, no MIME type
    is captured. *)
Lemma paramStep_mimeType_none ext acc key :
  mimeType (fst acc) = None ->
  test true contentTypeKey key
  && match exec true mimeTypeRe (nullish (searchParams_get url key) [])
     with Some _ => true | None => false end = false ->
  mimeType (fst (paramStep url ext acc key)) = None.
Proof.
  destruct acc as [st found]; unfold paramStep; simpl; intros H Hno.
  destruct (negb (truthy (fileName st)) && _);
    [destruct (exec true fileNameRe _); exact H|].
  destruct (test true contentTypeKey key); simpl in Hno.
  - destruct (exec true mimeTypeRe _); [discriminate Hno|].
    step_cases; exact H.
  - rewrite andb_false_r; step_cases; exact H.
Qed.

Lemma fold_mimeType_none ext keys : forall acc,
  mimeType (fst acc) = None ->
  existsb
    (fun key =>
       test true contentTypeKey key
       && match exec true mimeTypeRe
                  (nullish (searchParams_get url key) [])
          with Some _ => true | None => false end) keys = false ->
  mimeType (fst (fold_left (paramStep url ext) keys acc)) = None.
Proof.
  induction keys as [|key keys IH]; simpl; intros acc H Hno; [exact H|].
  apply orb_false_iff in Hno as [Hkey Hkeys].
  apply IH; auto using paramStep_mimeType_none.
Qed.

(** One call of the callback: it accepts an extension the basename
    ends with; the file name it leaves is the basename when the
    basename ends with the extension and the captured name does not,
    and the captured name otherwise. *)
Lemma extensionApplies_spec ext st :
  fileName st = None \/ fileName st = capturedFileName url ->
  (endsWith basename ext = true ->
   fst (extensionApplies url basename ext st) = true)
  /\ fileName (snd (extensionApplies url basename ext st))
     = (if endsWith basename ext
        then if optEndsWith (capturedFileName url) ext
             then capturedFileName url else Some basename
        else capturedFileName url)
  /\ mimeType (snd (extensionApplies url basename ext st))
     = mimeType (fst (paramLoop url ext st)).
Proof.
  intros H; apply (paramLoop_fileName url ext) in H.
  unfold extensionApplies.
  destruct (paramLoop url ext st) as [st1 found]; simpl in *.
  rewrite H.
  destruct (endsWith basename ext); simpl.
  - destruct (optEndsWith (capturedFileName url) ext); simpl; auto.
  - repeat split; auto; discriminate.
Qed.

Lemma findWith_spec (l : list jsstring) : forall st,
  fileName st = None \/ fileName st = capturedFileName url ->
  match fst (findWith (extensionApplies url basename) l st) with
  | Some E =>
      In E l
      /\ fileName (snd (findWith (extensionApplies url basename) l st))
         = (if endsWith basename E
            then if optEndsWith (capturedFileName url) E
                 then capturedFileName url else Some basename
            else capturedFileName url)
  | None =>
      (forall E, In E l -> endsWith basename E = false)
      /\ (l <> [] ->
          fileName (snd (findWith (extensionApplies url basename) l st))
          = capturedFileName url)
  end.
Proof.
  induction l as [|ext l IH]; simpl; intros st H.
  - split; [contradiction | congruence].
  - destruct (extensionApplies_spec ext st H) as (Hends & Hname & _).
    destruct (extensionApplies url basename ext st) as [found st'].
    simpl in *; destruct found; simpl.
    + auto.
    + assert (Hb : endsWith basename ext = false)
        by (destruct (endsWith basename ext); auto;
            discriminate Hends; reflexivity).
      rewrite Hb in Hname.
      specialize (IH st' (or_intror Hname)).
      destruct (fst (findWith _ l st')) as [E|].
      * destruct IH; auto.
      * destruct IH as [Hall Hne]; split.
        -- intros E [<-|HE]; auto.
        -- intros _; destruct l; simpl in *; auto.
           apply Hne; discriminate.
Qed.

Lemma findWith_in (l : list jsstring) : forall st E,
  fst (findWith (extensionApplies url basename) l st) = Some E -> In E l.
Proof.
  induction l as [|ext l IH]; simpl; intros st E; [discriminate|].
  destruct (extensionApplies url basename ext st) as [[|] st']; simpl.
  - intros [= ->]; auto.
  - eauto.
Qed.

Lemma findWith_mimeType_ok (l : list jsstring) : forall st,
  mimeType st = None \/ truthy (mimeType st) = true ->
  mimeType (snd (findWith (extensionApplies url basename) l st)) = None
  \/ truthy (mimeType
               (snd (findWith (extensionApplies url basename) l st)))
     = true.
Proof.
  induction l as [|ext l IH]; simpl; intros st H; [exact H|].
  assert (Hst : mimeType (snd (extensionApplies url basename ext st))
                = None
                \/ truthy (mimeType
                     (snd (extensionApplies url basename ext st)))
                   = true).
  { unfold extensionApplies.
    pose proof (fold_mimeType_ok ext (searchParams_keys url)
                  (st, false) H) as Hl.
    fold (paramLoop url ext st) in Hl.
    destruct (paramLoop url ext st) as [st1 found]; simpl in *.
    step_cases; simpl; exact Hl. }
  destruct (extensionApplies url basename ext st) as [[|] st']; simpl;
    auto.
Qed.

Lemma findWith_mimeType_none (l : list jsstring) : forall st,
  hasContentTypeHint url = false -> mimeType st = None ->
  mimeType (snd (findWith (extensionApplies url basename) l st)) = None.
Proof.
  intros st Hno; revert st.
  induction l as [|ext l IH]; simpl; intros st H; [exact H|].
  assert (Hst : mimeType (snd (extensionApplies url basename ext st))
                = None).
  { unfold extensionApplies.
    pose proof (fold_mimeType_none ext (searchParams_keys url)
                  (st, false) H Hno) as Hl.
    fold (paramLoop url ext st) in Hl.
    destruct (paramLoop url ext st) as [st1 found]; simpl in *.
    step_cases; simpl; exact Hl. }
  destruct (extensionApplies url basename ext st) as [[|] st']; simpl;
    auto.
Qed.

End Find.

(* ================================================================== *)
(** ** Name and type of an image: properties *)
(* ================================================================== *)

Lemma find_unique {A} (P : A -> bool) (l : list A) (x : A) :
  In x l -> P x = true ->
  (forall y, In y l -> P y = true -> y = x) ->
  find P l = Some x.
Proof.
  induction l as [|a l IH]; simpl; intros Hin Hx Huniq; [contradiction|].
  destruct (P a) eqn:Ha.
  - f_equal; apply Huniq; auto.
  - destruct Hin as [->|Hin]; [congruence|].
    apply IH; auto.
Qed.

Lemma find_none_iff {A} (P : A -> bool) (l : list A) :
  find P l = None <-> forall y, In y l -> P y = false.
Proof.
  split; [apply find_none|].
  induction l as [|a l IH]; simpl; intros H; [reflexivity|].
  rewrite (H a) by auto; apply IH; auto.
Qed.

(** The extension the scan finds is one of the table. *)
Lemma scanExtension_in (url : URL) (E : jsstring) :
  fst (scanExtension url) = Some E -> In E imageExtensions.
Proof. apply findWith_in. Qed.

Lemma resolved_in (url : URL) (d : option jsstring) (E : jsstring) :
  (forall x, d = Some x -> In x imageExtensions) ->
  nullishOpt (fst (scanExtension url)) d = Some E ->
  In E imageExtensions.
Proof.
  intros Hd; destruct (fst (scanExtension url)) as [e|] eqn:Hs; simpl.
  - intros [= <-]; eapply scanExtension_in; eauto.
  - intros H; apply Hd, H.
Qed.

(** The structured branch once an extension of the table is resolved. *)
Lemma getImageNameAndType_resolved (nanoid : jsstring) (url : URL)
    (d : option jsstring) (E : jsstring) :
  nullishOpt (fst (scanExtension url)) d = Some E ->
  In E imageExtensions ->
  exists m,
    In (E, m) imageExtensionToMime
    /\ getImageNameAndType nanoid (inr url) d
       = (Some (nullish (fileName (snd (scanExtension url)))
                  (nanoid ++ js "." ++ E)),
          Some m).
Proof.
  intros Hres HE.
  destruct (table_entry E HE) as (m & Hget & Hin & HtE & Htm).
  exists m; split; [exact Hin|].
  unfold getImageNameAndType.
  destruct (scanExtension url) as [found st]; cbn [fst snd] in Hres |- *.
  rewrite Hres, HtE; cbn [nullish]; rewrite Hget, Htm.
  cbv beta iota; rewrite Htm; reflexivity.
Qed.

(** C1 as the code has it.  With no extension resolved and no default
    extension: a string input gives (undefined, undefined); a structured
    URL gives (undefined, undefined) when the scan captured no MIME type,
    in particular when no content-type param holds an image token, and
    gives the captured MIME type as MIME type when the scan captured
    one. *)
Theorem C1_unresolved_extension (nanoid : jsstring) :
  (forall s,
      (forall E, In E imageExtensions -> endsWith s E = false) ->
      getImageNameAndType nanoid (inl s) None = (None, None))
  /\ (forall url,
         fst (scanExtension url) = None ->
         (mimeType (snd (scanExtension url)) = None ->
          getImageNameAndType nanoid (inr url) None = (None, None))
         /\ (hasContentTypeHint url = false ->
             getImageNameAndType nanoid (inr url) None = (None, None))
         /\ (forall m,
                mimeType (snd (scanExtension url)) = Some m ->
                snd (getImageNameAndType nanoid (inr url) None) = Some m)).
Proof.
  split.
  - intros s Hs.
    pose proof (proj2 (find_none_iff (fun ext => endsWith s ext)
                         imageExtensions) Hs) as Hf.
    unfold getImageNameAndType; rewrite Hf; reflexivity.
  - intros url Hnone.
    assert (Hno : mimeType (snd (scanExtension url)) = None ->
                  getImageNameAndType nanoid (inr url) None = (None, None)).
    { unfold getImageNameAndType.
      destruct (scanExtension url) as [found st]; simpl in *; subst found.
      simpl; intros ->; reflexivity. }
    split; [exact Hno | split].
    + intros Hhint; apply Hno.
      apply findWith_mimeType_none; auto.
    + intros m Hm.
      pose proof (findWith_mimeType_ok url (basenameOf url) imageExtensions
                    (ScanState None None) (or_introl eq_refl)) as Hok.
      fold (scanExtension url) in Hok.
      unfold getImageNameAndType.
      destruct (scanExtension url) as [found st]; simpl in *; subst found.
      simpl; rewrite Hm in *.
      destruct Hok as [Hok|Hok]; [discriminate|].
      cbn [truthy] in Hok |- *.
      destruct m; [discriminate | reflexivity].
Qed.

(** C1, the claim as stated, fails: with a content-type param naming an
    image type outside the table, no extension is resolved and none is
    defaulted, yet the result is not (undefined, undefined). *)
Lemma C1_counterexample :
  fst (scanExtension
         (mkURL (js "/img/pic") [(js "content-type", js "image/avif")]))
  = None
  /\ getImageNameAndType (js "ID")
       (inr (mkURL (js "/img/pic") [(js "content-type", js "image/avif")]))
       None
     = (Some (js "ID.undefined"), Some (js "image/avif")).
Proof. split; vm_compute; reflexivity. Qed.

Lemma C1_unresolved_extension_witness :
  getImageNameAndType (js "ID") (inl (js "data.bin")) None = (None, None)
  /\ getImageNameAndType (js "ID")
       (inr (mkURL (js "/img/pic") [(js "v", js "2")])) None
     = (None, None)
  /\ snd (getImageNameAndType (js "ID")
            (inr (mkURL (js "/img/pic")
                    [(js "content-type", js "image/avif")])) None)
     = Some (js "image/avif").
Proof.
  split; [|split].
  - apply (proj1 (C1_unresolved_extension (js "ID"))).
    intros E HE; cbv in HE.
    repeat (destruct HE as [<-|HE]); try contradiction; reflexivity.
  - apply (proj2 (C1_unresolved_extension (js "ID"))).
    + vm_compute; reflexivity.
    + vm_compute; reflexivity.
  - apply (proj2 (C1_unresolved_extension (js "ID"))).
    + vm_compute; reflexivity.
    + vm_compute; reflexivity.
Defined.

(** C2.  For a structured URL with a file name captured from a
    content-disposition param and a selected extension (found by the
    scan, or the default, which is of the table): when the basename ends
    with the selected extension, the basename is the returned file name
    exactly when the captured name does not end with that extension, and
    the captured name is returned when it does; when the basename does
    not end with the selected extension, the captured name is
    returned. *)
Theorem C2_captured_name_or_basename (nanoid : jsstring) (url : URL)
    (d : option jsstring) (f E : jsstring) :
  capturedFileName url = Some f ->
  (forall x, d = Some x -> In x imageExtensions) ->
  nullishOpt (fst (scanExtension url)) d = Some E ->
  fst (getImageNameAndType nanoid (inr url) d)
  = Some (if endsWith (basenameOf url) E
          then if endsWith f E then f else basenameOf url
          else f).
Proof.
  intros Hcap Hd Hres.
  pose proof (resolved_in url d E Hd Hres) as HE.
  destruct (getImageNameAndType_resolved nanoid url d E Hres HE)
    as (m & _ & ->); cbn [fst]; f_equal.
  pose proof (findWith_spec url (basenameOf url) imageExtensions
                (ScanState None None) (or_introl eq_refl)) as Hspec.
  fold (scanExtension url) in Hspec.
  rewrite Hcap in Hspec; cbn [optEndsWith] in Hspec.
  destruct (fst (scanExtension url)) as [E'|]; cbn [nullishOpt] in Hres.
  - injection Hres as ->; destruct Hspec as [_ ->].
    destruct (endsWith (basenameOf url) E), (endsWith f E); reflexivity.
  - destruct Hspec as [Hall Hname].
    rewrite (Hall E HE), Hname by discriminate; reflexivity.
Qed.

Lemma C2_captured_name_or_basename_witness :
  fst (getImageNameAndType (js "ID")
         (inr (mkURL (js "/img/pic.png")
                 [(js "response-content-disposition",
                   js "attachment; filename=cat.webp")])) None)
  = Some (js "pic.png").
Proof.
  apply (C2_captured_name_or_basename (js "ID")
           (mkURL (js "/img/pic.png")
              [(js "response-content-disposition",
                js "attachment; filename=cat.webp")])
           None (js "cat.webp") (js ".png")).
  - vm_compute; reflexivity.
  - discriminate.
  - vm_compute; reflexivity.
Defined.

(** C3.  For a structured URL, whenever an extension is resolved, by the
    scan or by the default extension (which is of the table), the MIME
    type returned is the one the table maps that extension to, whatever
    MIME type the scan captured. *)
Theorem C3_extension_decides_mimeType (nanoid : jsstring) (url : URL)
    (d : option jsstring) (E : jsstring) :
  (forall x, d = Some x -> In x imageExtensions) ->
  nullishOpt (fst (scanExtension url)) d = Some E ->
  exists m,
    In (E, m) imageExtensionToMime
    /\ mapGet imageExtensionToMime E = Some m
    /\ snd (getImageNameAndType nanoid (inr url) d) = Some m.
Proof.
  intros Hd Hres.
  pose proof (resolved_in url d E Hd Hres) as HE.
  destruct (getImageNameAndType_resolved nanoid url d E Hres HE)
    as (m & Hin & ->).
  exists m; repeat split; auto.
  apply table_functional, Hin.
Qed.

Lemma C3_extension_decides_mimeType_witness :
  exists m,
    In (js ".png", m) imageExtensionToMime
    /\ mapGet imageExtensionToMime (js ".png") = Some m
    /\ snd (getImageNameAndType (js "ID")
              (inr (mkURL (js "/img/pic.png")
                      [(js "content-type", js "image/avif")])) None)
       = Some m.
Proof.
  apply (C3_extension_decides_mimeType (js "ID")
           (mkURL (js "/img/pic.png")
              [(js "content-type", js "image/avif")])
           None (js ".png")).
  - discriminate.
  - vm_compute; reflexivity.
Defined.

(** C4.  With a default extension of the table, every input, string or
    structured URL, gives a file name and a MIME type, both present, the
    MIME type being one of the table; and the string data.bin with the
    default extension .jpg gives (data.bin, image/jpeg). *)
Theorem C4_default_extension_total (nanoid : jsstring) :
  (forall (url : jsstring + URL) (d : jsstring),
      In d imageExtensions ->
      exists name mime,
        getImageNameAndType nanoid url (Some d) = (Some name, Some mime)
        /\ In mime imageMimeTypes)
  /\ getImageNameAndType nanoid (inl (js "data.bin")) (Some (js ".jpg"))
     = (Some (js "data.bin"), Some (js "image/jpeg")).
Proof.
  split; [|vm_compute; reflexivity].
  intros [s|url] d Hd.
  - unfold getImageNameAndType.
    assert (HE : exists E,
               nullishOpt (find (fun ext => endsWith s ext) imageExtensions)
                          (Some d) = Some E
               /\ In E imageExtensions).
    { destruct (find _ imageExtensions) as [e|] eqn:Hf; cbn [nullishOpt].
      - exists e; split; auto; apply find_some in Hf; tauto.
      - exists d; auto. }
    destruct HE as (E & -> & HE).
    destruct (table_entry E HE) as (m & Hget & Hin & -> & _).
    cbn [nullish]; rewrite Hget; exists s, m; split; auto.
    apply (in_map snd) in Hin; exact Hin.
  - assert (HE : exists E,
               nullishOpt (fst (scanExtension url)) (Some d) = Some E).
    { destruct (fst (scanExtension url)); cbn [nullishOpt]; eauto. }
    destruct HE as (E & Hres).
    assert (HinE : In E imageExtensions).
    { apply (resolved_in url (Some d) E); auto.
      intros x [= <-]; exact Hd. }
    destruct (getImageNameAndType_resolved nanoid url (Some d) E Hres HinE)
      as (m & Hin & ->).
    eexists _, m; split; [reflexivity|].
    apply (in_map snd) in Hin; exact Hin.
Qed.

Lemma C4_default_extension_total_witness :
  exists name mime,
    getImageNameAndType (js "ID") (inr (mkURL (js "/img/pic") []))
      (Some (js ".ico"))
    = (Some name, Some mime)
    /\ In mime imageMimeTypes.
Proof.
  apply (proj1 (C4_default_extension_total (js "ID"))).
  cbv; tauto.
Defined.

(** C7.  Round trip: for an extension of the table and a string that
    ends with it, with no default extension, the string itself comes
    back as the file name, with the MIME type the table maps the
    extension to. *)
Theorem C7_string_roundtrip (nanoid : jsstring) (E m s : jsstring) :
  In (E, m) imageExtensionToMime ->
  endsWith s E = true ->
  getImageNameAndType nanoid (inl s) None = (Some s, Some m).
Proof.
  intros Hin Hends.
  apply table_functional in Hin as [HE Hget].
  apply endsWith_iff in Hends as [q ->].
  assert (Hf : find (fun ext => endsWith (q ++ E) ext) imageExtensions
               = Some E).
  { apply find_unique; auto using endsWith_app.
    intros e' He'; apply extension_suffix_unique; auto. }
  unfold getImageNameAndType; rewrite Hf; cbn [nullishOpt nullish].
  destruct (table_entry E HE) as (m' & _ & _ & -> & _).
  rewrite Hget; reflexivity.
Qed.

Lemma C7_string_roundtrip_witness :
  getImageNameAndType (js "ID") (inl (js "photo.png")) None
  = (Some (js "photo.png"), Some (js "image/png")).
Proof.
  apply (C7_string_roundtrip (js "ID") (js ".png")).
  - cbv; tauto.
  - vm_compute; reflexivity.
Defined.

(* ================================================================== *)
(** ** From a MIME type back to an extension *)
(* ================================================================== *)

(** [indexOf] on the values of an ordered table finds the first entry
    with the value, and the keys have its extension at that index. *)
Lemma indexOf_first_entry (t : list (jsstring * jsstring)) (m : jsstring) :
  In m (map snd t) ->
  exists pre e post,
    t = pre ++ (e, m) :: post /\ ~ In m (map snd pre)
    /\ indexOf (map snd t) m = Z.of_nat (length pre)
    /\ nth_error (map fst t) (length pre) = Some e.
Proof.
  induction t as [|[e0 m0] t IH]; simpl; [contradiction|].
  intros Hin; destruct (streq m0 m) eqn:Heq.
  - apply streq_eq in Heq as ->.
    exists [], e0, t; simpl; auto.
  - assert (Hne : m0 <> m)
      by (intros ->; rewrite streq_refl in Heq; discriminate).
    destruct Hin as [Hin|Hin]; [contradiction|].
    destruct (IH Hin) as (pre & e & post & -> & Hpre & Hidx & Hnth).
    exists ((e0, m0) :: pre), e, post; simpl; rewrite Hidx.
    destruct (Z.ltb_spec (Z.of_nat (length pre)) 0); [lia|].
    repeat split; auto; [tauto | lia].
Qed.

Lemma indexOf_absent (l : list jsstring) (x : jsstring) :
  ~ In x l -> indexOf l x = (-1)%Z.
Proof.
  induction l as [|y l IH]; simpl; intros Hin; [reflexivity|].
  destruct (streq y x) eqn:Heq.
  - apply streq_eq in Heq; tauto.
  - rewrite IH by tauto; reflexivity.
Qed.

(** C5.  For a MIME type of the table, [getImageExtensionForMimeType]
    gives the extension of the first entry, in declaration order, with
    that MIME type: image/jpeg gives .jpeg, not .jpg.  For any other
    MIME type it gives undefined. *)
Theorem C5_first_extension_of_mimeType :
  (forall m,
      In m imageMimeTypes ->
      exists pre e post,
        imageExtensionToMime = pre ++ (e, m) :: post
        /\ ~ In m (map snd pre)
        /\ getImageExtensionForMimeType m = Some e)
  /\ getImageExtensionForMimeType (js "image/jpeg") = Some (js ".jpeg")
  /\ (forall m,
         ~ In m imageMimeTypes -> getImageExtensionForMimeType m = None).
Proof.
  split; [|split]; [|vm_compute; reflexivity|].
  - intros m Hin.
    destruct (indexOf_first_entry imageExtensionToMime m Hin)
      as (pre & e & post & Ht & Hpre & Hidx & Hnth).
    exists pre, e, post; repeat split; auto.
    unfold getImageExtensionForMimeType, imageMimeTypes, imageExtensions.
    rewrite Hidx; unfold Js.index.
    destruct (Z.gtb_spec (Z.of_nat (length pre)) (-1)); [|lia].
    destruct (Z.ltb_spec (Z.of_nat (length pre)) 0); [lia|].
    rewrite Nat2Z.id; exact Hnth.
  - intros m Hin; unfold getImageExtensionForMimeType.
    rewrite indexOf_absent by exact Hin; reflexivity.
Qed.

Lemma C5_first_extension_of_mimeType_witness :
  (exists pre e post,
      imageExtensionToMime = pre ++ (e, js "image/webp") :: post
      /\ ~ In (js "image/webp") (map snd pre)
      /\ getImageExtensionForMimeType (js "image/webp") = Some e)
  /\ getImageExtensionForMimeType (js "image/avif") = None.
Proof.
  split.
  - apply (proj1 C5_first_extension_of_mimeType); cbv; tauto.
  - apply (proj2 (proj2 C5_first_extension_of_mimeType)).
    cbv; intuition discriminate.
Defined.

(* ================================================================== *)
(** ** Digests: properties *)
(* ================================================================== *)

Lemma byte_toString16_padStart (b : byte) :
  padStart 2 (js "0") (toString16 (Byte.to_N b)) = byteHex b.
Proof. destruct b; reflexivity. Qed.

Lemma byteHex_lower (b : byte) :
  Forall (fun c => isLowerHexDigit c = true) (byteHex b).
Proof. destruct b; repeat constructor. Qed.

(** Every byte of the buffer gives its two digits, in order. *)
Lemma bufferToHex_flat_map (buffer : list byte) :
  bufferToHex buffer = flat_map byteHex buffer.
Proof.
  unfold bufferToHex; induction buffer as [|b buffer IH]; simpl;
    [reflexivity|].
  rewrite byte_toString16_padStart, IH; reflexivity.
Qed.

Lemma bufferToHex_length (buffer : list byte) :
  length (bufferToHex buffer) = (2 * length buffer)%nat.
Proof.
  rewrite bufferToHex_flat_map.
  induction buffer as [|b buffer IH]; simpl; [reflexivity|].
  rewrite IH; lia.
Qed.

Lemma bufferToHex_lower (buffer : list byte) :
  Forall (fun c => isLowerHexDigit c = true) (bufferToHex buffer).
Proof.
  rewrite bufferToHex_flat_map.
  induction buffer as [|b buffer IH]; simpl; [constructor|].
  pose proof (byteHex_lower b) as Hb; unfold byteHex in Hb.
  inversion Hb as [|? ? H1 Hb']; inversion Hb' as [|? ? H2 _]; subst.
  repeat constructor; auto.
Qed.

(** A SHA-256 digest has 32 bytes. *)
Lemma digest_length (data : list byte) :
  length (SHA256.digest data) = 32%nat.
Proof.
  unfold SHA256.digest, SHA256.wordBytes; cbv zeta.
  rewrite !length_app, !length_map; reflexivity.
Qed.

(** C8.  [getSha256Hash] digests the UTF-8 encoding of its input with
    SHA-256 and is fulfilled with the hexadecimal form of the digest:
    two digits for every byte, the high one first (so zero-padded), 64
    code units in all, each of them in 0-9 or a-f.  For the empty string
    it is the digest e3b0c442...7852b855. *)
Theorem C8_sha256_hex (DOMException : Type) (data : jsstring)
    (log : list call) :
  (exists hex,
      @getSha256Hash DOMException data log
      = (Fulfilled hex, log ++ [Digest (TextEncoder.encode data)])
      /\ hex = flat_map byteHex (SHA256.digest (TextEncoder.encode data))
      /\ length hex = 64%nat
      /\ Forall (fun c => isLowerHexDigit c = true) hex)
  /\ @getSha256Hash DOMException [] log
     = (Fulfilled
          (js "e3b0c44298fc1c149afbf4c8996fb92427ae41e4649b934ca495991b7852b855"),
        log ++ [Digest []]).
Proof.
  split.
  - exists (bufferToHex (SHA256.digest (TextEncoder.encode data))).
    split; [reflexivity|].
    split; [apply bufferToHex_flat_map|].
    split; [|apply bufferToHex_lower].
    rewrite bufferToHex_length, digest_length; reflexivity.
  - unfold getSha256Hash, await, subtle_digest, resolve.
    f_equal; f_equal; vm_compute; reflexivity.
Qed.

(** C9.  When the read of the file fails, [getSha256HashOfFile] is
    rejected with the error of the reader, after that one read and no
    other platform call.  When the read succeeds, it is fulfilled, after
    the read and one digest call on the bytes read, with the hexadecimal
    form of their SHA-256 digest: for each of the 32 bytes its two
    digits, the high one first, 64 code units in 0-9 or a-f. *)
Theorem C9_read_failure_propagates (DOMException : Type)
    (fileReader : File.t -> readOutcome DOMException) (file : File.t)
    (log : list call) :
  (forall error,
      fileReader file = Error error ->
      getSha256HashOfFile DOMException fileReader file log
      = (Rejected error, log ++ [ReadAsArrayBuffer file]))
  /\ (forall bytes,
         fileReader file = Load bytes ->
         exists hex,
           getSha256HashOfFile DOMException fileReader file log
           = (Fulfilled hex,
              (log ++ [ReadAsArrayBuffer file]) ++ [Digest bytes])
           /\ hex = flat_map byteHex (SHA256.digest bytes)
           /\ length hex = 64%nat
           /\ Forall (fun c => isLowerHexDigit c = true) hex).
Proof.
  split.
  - intros error Hread.
    unfold getSha256HashOfFile, await, readFileAsArrayBuffer.
    rewrite Hread; reflexivity.
  - intros bytes Hread.
    exists (bufferToHex (SHA256.digest bytes)).
    split; [|split; [apply bufferToHex_flat_map | split]].
    + unfold getSha256HashOfFile, await, readFileAsArrayBuffer,
        subtle_digest, resolve.
      rewrite Hread; reflexivity.
    + rewrite bufferToHex_length, digest_length; reflexivity.
    + apply bufferToHex_lower.
Qed.

Lemma C9_read_failure_propagates_witness :
  getSha256HashOfFile nat
    (fun file =>
       match File.name file with [] => Error 7%nat | _ => Load [x61] end)
    (File.Build [] (js "image/png")) []
  = (Rejected 7%nat, [ReadAsArrayBuffer (File.Build [] (js "image/png"))])
  /\ getSha256HashOfFile nat
       (fun file =>
          match File.name file with [] => Error 7%nat | _ => Load [x61] end)
       (File.Build (js "a.png") (js "image/png")) []
     = (Fulfilled
          (js "ca978112ca1bbdcafac231b39a23dc4da786eff8147c4e72b9807785afee48bb"),
        [ReadAsArrayBuffer (File.Build (js "a.png") (js "image/png"));
         Digest [x61]]).
Proof.
  split.
  - apply (proj1 (C9_read_failure_propagates nat _ _ [])); reflexivity.
  - destruct (proj2 (C9_read_failure_propagates nat
                       (fun file =>
                          match File.name file with
                          | [] => Error 7%nat
                          | _ => Load [x61]
                          end)
                       (File.Build (js "a.png") (js "image/png")) [])
                [x61] eq_refl) as (hex & Heq & Hhex & _).
    rewrite Heq, Hhex; vm_compute; reflexivity.
Defined.

(* ================================================================== *)
(** ** The asset builder: properties *)
(* ================================================================== *)

(** C6 as the code has it.  For a record that holds a [File], or a URL
    string that [new URL] accepts, let the MIME type be the one
    [getImageType] resolves, image/png when it resolves none.  When it
    starts with image/, the asset is an image whose width and height are
    NaN and whose format is the text between that slash and the next
    slash or the end: all the text after the slash when there is no
    other slash.  Otherwise the asset is a font with format woff2 and
    meta system, normal, 400, whatever the MIME type.  For a record
    with a URL string that [new URL] refuses, the constructor throws and
    there is no asset. *)
Theorem C6_image_or_font (nanoid : jsstring)
    (parseURL : jsstring -> option URL) (fileData : UploadingFileData) :
  match uploadSource parseURL fileData with
  | None =>
      (exists assetId objectURL url,
          fileData = FromUrl assetId objectURL url /\ parseURL url = None)
      /\ uploadingFileDataToAsset nanoid parseURL fileData = None
  | Some file =>
      let mimeType :=
        nullish (getImageType nanoid file) (js "image/png") in
      if startsWith mimeType (js "image/") then
        exists subtype rest,
          mimeType = js "image/" ++ subtype ++ rest
          /\ ~ In 47 subtype
          /\ (rest = [] \/ hd_error rest = Some 47)
          /\ uploadingFileDataToAsset nanoid parseURL fileData
             = Some (Asset.Build (assetId fileData) (objectURL fileData)
                       (Some subtype) Asset.image [] [] [] (Integer 0)
                       (Asset.ImageMeta NaN NaN))
      else
        uploadingFileDataToAsset nanoid parseURL fileData
        = Some (Asset.Build (assetId fileData) (objectURL fileData)
                  (Some (js "woff2")) Asset.font [] [] [] (Integer 0)
                  (Asset.FontMeta (js "system") (js "normal")
                     (Integer 400)))
  end.
Proof.
  unfold uploadingFileDataToAsset.
  destruct (uploadSource parseURL fileData) as [file|] eqn:Hsrc.
  - cbv zeta.
    destruct (startsWith _ (js "image/")) eqn:Hs; [|reflexivity].
    apply startsWith_iff in Hs as [r Hr]; rewrite Hr.
    destruct (split_first 47 r)
      as (seg & segs & rest & Hsplit & -> & Hin & Hrest).
    exists seg, rest; repeat split; auto.
    change (js "image/" ++ seg ++ rest)
      with (js "image" ++ 47 :: seg ++ rest).
    rewrite split_app_sep, Hsplit; [reflexivity|].
    cbv; intuition discriminate.
  - split; [|reflexivity].
    destruct fileData as [a o file | a o u]; cbn [uploadSource] in Hsrc;
      [discriminate|].
    exists a, o, u; split; [reflexivity|].
    destruct (parseURL u); [discriminate | reflexivity].
Qed.

(** C6, the claim as stated, fails in two ways.  For a [File] of type
    image/a/b the MIME type starts with image/ and the text after the
    slash is a/b, yet the format of the asset is a.  For a record whose
    URL string [new URL] refuses, there is no asset at all. *)
Lemma C6_counterexample :
  startsWith
    (nullish (getImageType (js "ID")
                (OfFile (File.Build (js "pic") (js "image/a/b"))))
       (js "image/png"))
    (js "image/") = true
  /\ skipn 6 (js "image/a/b") = js "a/b"
  /\ uploadingFileDataToAsset (js "ID") (fun _ => None)
       (FromFile (js "a1") (js "blob:1")
          (File.Build (js "pic") (js "image/a/b")))
     = Some (Asset.Build (js "a1") (js "blob:1") (Some (js "a"))
               Asset.image [] [] [] (Integer 0) (Asset.ImageMeta NaN NaN))
  /\ js "a" <> js "a/b"
  /\ uploadingFileDataToAsset (js "ID") (fun _ => None)
       (FromUrl (js "a1") (js "blob:1") (js "not a url"))
     = None.
Proof.
  repeat split; try (vm_compute; reflexivity); discriminate.
Qed.

Lemma C6_image_or_font_witness :
  exists subtype rest,
    js "image/jpeg" = js "image/" ++ subtype ++ rest
    /\ ~ In 47 subtype
    /\ (rest = [] \/ hd_error rest = Some 47)
    /\ uploadingFileDataToAsset (js "ID") (fun _ => None)
         (FromFile (js "a1") (js "blob:1")
            (File.Build (js "cat.jpg") (js "image/jpeg")))
       = Some (Asset.Build (js "a1") (js "blob:1")
                 (Some subtype) Asset.image [] [] [] (Integer 0)
                 (Asset.ImageMeta NaN NaN)).
Proof.
  exact (C6_image_or_font (js "ID") (fun _ => None)
           (FromFile (js "a1") (js "blob:1")
              (File.Build (js "cat.jpg") (js "image/jpeg")))).
Defined.

(** C10.  For a record holding a [File] whose type is the empty string,
    the MIME type stays the empty string, the image/png default not
    being applied, and the asset is a font with format woff2. *)
Theorem C10_empty_file_type (nanoid : jsstring)
    (parseURL : jsstring -> option URL) (assetId objectURL : jsstring)
    (file : File.t) :
  File.type file = [] ->
  nullish (getImageType nanoid (OfFile file)) (js "image/png") = []
  /\ uploadingFileDataToAsset nanoid parseURL
       (FromFile assetId objectURL file)
     = Some (Asset.Build assetId objectURL
               (Some (js "woff2")) Asset.font [] [] [] (Integer 0)
               (Asset.FontMeta (js "system") (js "normal") (Integer 400))).
Proof.
  intros Htype; unfold uploadingFileDataToAsset; simpl.
  rewrite Htype; split; reflexivity.
Qed.

Lemma C10_empty_file_type_witness :
  nullish (getImageType (js "ID") (OfFile (File.Build (js "font.bin") [])))
    (js "image/png") = []
  /\ uploadingFileDataToAsset (js "ID") (fun _ => None)
       (FromFile (js "a1") (js "blob:1") (File.Build (js "font.bin") []))
     = Some (Asset.Build (js "a1") (js "blob:1")
               (Some (js "woff2")) Asset.font [] [] [] (Integer 0)
               (Asset.FontMeta (js "system") (js "normal") (Integer 400))).
Proof.
  apply (C10_empty_file_type (js "ID") (fun _ => None) (js "a1")
           (js "blob:1") (File.Build (js "font.bin") [])).
  reflexivity.
Defined.

(* ================================================================== *)
(** ** Values on concrete inputs *)
(* ================================================================== *)

Example url_basename_gif :
  getImageNameAndType (js "ID") (inr (mkURL (js "/img/pic.gif") [])) None
  = (Some (js "pic.gif"), Some (js "image/gif")).
Proof. vm_compute; reflexivity. Qed.

(** A quoted file name (code unit 34 is the double quote) on a path
    without extension. *)
Example url_quoted_filename :
  getImageNameAndType (js "ID")
    (inr (mkURL (js "/download")
            [(js "response-content-disposition",
              js "inline; filename=" ++ [34] ++ js "cat.webp" ++ [34])]))
    None
  = (Some (js "cat.webp"), Some (js "image/webp")).
Proof. vm_compute; reflexivity. Qed.

(** An unclosed quote: the second alternative takes the quote too. *)
Example filename_unclosed_quote :
  exec true fileNameRe (js "FileName=" ++ [34] ++ js "cat.webp; x")
  = Some [(2%nat, [34] ++ js "cat.webp")].
Proof. vm_compute; reflexivity. Qed.

Example key_needs_word_boundaries :
  test true contentDispositionKey (js "X-Content-Disposition") = true
  /\ test true contentDispositionKey (js "content-disposition_2") = false
  /\ test true contentTypeKey (js "response-content-type") = true
  /\ test true contentTypeKey (js "content-types") = false.
Proof. vm_compute; repeat split; reflexivity. Qed.

(** The token keeps the case of the input, and then is none of the
    table. *)
Example mimeType_upper_case :
  getImageNameAndType (js "ID")
    (inr (mkURL (js "/x") [(js "Content-Type", js "IMAGE/PNG")])) None
  = (Some (js "ID.undefined"), Some (js "IMAGE/PNG")).
Proof. vm_compute; reflexivity. Qed.

Example url_param_value_extension :
  getImageNameAndType (js "ID")
    (inr (mkURL (js "/proxy") [(js "src", js "https://x.test/a.svg")])) None
  = (Some (js "ID..svg"), Some (js "image/svg+xml")).
Proof. vm_compute; reflexivity. Qed.

Example sha256_abc :
  bufferToHex (SHA256.digest (TextEncoder.encode (js "abc")))
  = js "ba7816bf8f01cfea414140de5dae2223b00361a396177a9cb410ff61f20015ad".
Proof. vm_compute; reflexivity. Qed.

(** Two blocks. *)
Example sha256_two_blocks :
  bufferToHex
    (SHA256.digest
       (TextEncoder.encode
          (js "abcdbcdecdefdefgefghfghighijhijkijkljklmklmnlmnomnopnopq")))
  = js "248d6a61d20638b8e5c026930c3e6039a33ce45964ff2167f6ecedd419db06c1".
Proof. vm_compute; reflexivity. Qed.

(** The euro sign, a surrogate pair, and a surrogate alone. *)
Example utf8_encode :
  map Byte.to_N (TextEncoder.encode [0x20AC; 0xD83D; 0xDE00; 0xD800])
  = [226; 130; 172; 240; 159; 152; 128; 239; 191; 189].
Proof. vm_compute; reflexivity. Qed.

Example asset_of_octet_stream :
  uploadingFileDataToAsset (js "ID") (fun _ => None)
    (FromFile (js "a1") (js "blob:1")
       (File.Build (js "f.bin") (js "application/octet-stream")))
  = Some (Asset.Build (js "a1") (js "blob:1") (Some (js "woff2"))
            Asset.font [] [] [] (Integer 0)
            (Asset.FontMeta (js "system") (js "normal") (Integer 400))).
Proof. vm_compute; reflexivity. Qed.

(** A URL that resolves no type gets the image/png default. *)
Example asset_of_unknown_url :
  uploadingFileDataToAsset (js "ID")
    (fun _ => Some (mkURL (js "/download") []))
    (FromUrl (js "a1") (js "blob:1") (js "https://x.test/download"))
  = Some (Asset.Build (js "a1") (js "blob:1") (Some (js "png"))
            Asset.image [] [] [] (Integer 0) (Asset.ImageMeta NaN NaN)).
Proof. vm_compute; reflexivity. Qed.

(* ================================================================== *)
(** ** Further properties of the table and of the string branch *)
(* ================================================================== *)

(** X1.  An extension [getImageExtensionForMimeType] returns is of the
    table and maps back to the MIME type it was asked for. *)
Theorem X1_extension_maps_back (m e : jsstring) :
  getImageExtensionForMimeType m = Some e ->
  In (e, m) imageExtensionToMime
  /\ mapGet imageExtensionToMime e = Some m.
Proof.
  intros H.
  destruct (in_dec (list_eq_dec N.eq_dec) m imageMimeTypes) as [Hin|Hout].
  - destruct (indexOf_first_entry imageExtensionToMime m Hin)
      as (pre & e' & post & Ht & _ & Hidx & Hnth).
    unfold getImageExtensionForMimeType, imageMimeTypes, imageExtensions,
      Js.index in H.
    rewrite Hidx in H.
    destruct (Z.gtb_spec (Z.of_nat (length pre)) (-1)); [|lia].
    destruct (Z.ltb_spec (Z.of_nat (length pre)) 0); [lia|].
    rewrite Nat2Z.id, Hnth in H; injection H as <-.
    assert (Hentry : In (e', m) imageExtensionToMime)
      by (rewrite Ht; apply in_elt).
    split; [exact Hentry | apply table_functional, Hentry].
  - unfold getImageExtensionForMimeType in H.
    rewrite indexOf_absent in H by exact Hout; discriminate.
Qed.

Lemma X1_extension_maps_back_witness :
  In (js ".jpeg", js "image/jpeg") imageExtensionToMime
  /\ mapGet imageExtensionToMime (js ".jpeg") = Some (js "image/jpeg").
Proof.
  apply (X1_extension_maps_back (js "image/jpeg") (js ".jpeg")).
  vm_compute; reflexivity.
Defined.

(** X2.  From an extension of the table to its MIME type and back: the
    extension itself, except for .jpg, which comes back as .jpeg. *)
Theorem X2_mimeType_maps_back (e m : jsstring) :
  In (e, m) imageExtensionToMime ->
  getImageExtensionForMimeType m
  = Some (if streq e (js ".jpg") then js ".jpeg" else e).
Proof.
  intros H; cbv in H.
  repeat (destruct H as [H|H]); try contradiction;
    injection H as <- <-; vm_compute; reflexivity.
Qed.

Lemma X2_mimeType_maps_back_witness :
  getImageExtensionForMimeType (js "image/svg+xml") = Some (js ".svg").
Proof.
  apply (X2_mimeType_maps_back (js ".svg") (js "image/svg+xml")).
  cbv; tauto.
Defined.

(** X3.  For a string that ends with an extension of the table, the
    default extension is not looked at: the result is the string and the
    MIME type of the extension it ends with, whatever the default. *)
Theorem X3_string_suffix_beats_default (nanoid : jsstring)
    (s : jsstring) (d : option jsstring) (E m : jsstring) :
  In (E, m) imageExtensionToMime ->
  endsWith s E = true ->
  getImageNameAndType nanoid (inl s) d = (Some s, Some m).
Proof.
  intros Hin Hends.
  apply table_functional in Hin as [HE Hget].
  apply endsWith_iff in Hends as [q ->].
  assert (Hf : find (fun ext => endsWith (q ++ E) ext) imageExtensions
               = Some E).
  { apply find_unique; auto using endsWith_app.
    intros e' He'; apply extension_suffix_unique; auto. }
  unfold getImageNameAndType; rewrite Hf; cbn [nullishOpt nullish].
  destruct (table_entry E HE) as (m' & _ & _ & -> & _).
  rewrite Hget; reflexivity.
Qed.

Lemma X3_string_suffix_beats_default_witness :
  getImageNameAndType (js "ID") (inl (js "photo.png")) (Some (js ".gif"))
  = (Some (js "photo.png"), Some (js "image/png")).
Proof.
  apply (X3_string_suffix_beats_default (js "ID") (js "photo.png")
           (Some (js ".gif")) (js ".png")).
  - cbv; tauto.
  - vm_compute; reflexivity.
Defined.

(** X4.  For a string that ends with no extension of the table, a default
    extension of the table decides: the result is the string, unchanged,
    and the MIME type of the default. *)
Theorem X4_string_default_fallback (nanoid : jsstring)
    (s d m : jsstring) :
  In (d, m) imageExtensionToMime ->
  (forall E, In E imageExtensions -> endsWith s E = false) ->
  getImageNameAndType nanoid (inl s) (Some d) = (Some s, Some m).
Proof.
  intros Hin Hnone.
  apply table_functional in Hin as [Hd Hget].
  pose proof (proj2 (find_none_iff (fun ext => endsWith s ext)
                       imageExtensions) Hnone) as Hf.
  unfold getImageNameAndType; rewrite Hf; cbn [nullishOpt nullish].
  destruct (table_entry d Hd) as (m' & _ & _ & -> & _).
  rewrite Hget; reflexivity.
Qed.

Lemma X4_string_default_fallback_witness :
  getImageNameAndType (js "ID") (inl (js "archive.tar")) (Some (js ".webp"))
  = (Some (js "archive.tar"), Some (js "image/webp")).
Proof.
  apply (X4_string_default_fallback (js "ID") (js "archive.tar")
           (js ".webp")).
  - cbv; tauto.
  - intros E HE; cbv in HE.
    repeat (destruct HE as [<-|HE]); try contradiction; reflexivity.
Defined.

(* ================================================================== *)
(** ** Further properties of the structured branch *)
(* ================================================================== *)

(** The structured branch answers with both a name and a type, or with
    neither. *)
Lemma getImageNameAndType_url_shape (nanoid : jsstring) (url : URL)
    (d : option jsstring) :
  getImageNameAndType nanoid (inr url) d = (None, None)
  \/ exists name mime,
      getImageNameAndType nanoid (inr url) d = (Some name, Some mime)
      /\ mime <> [].
Proof.
  unfold getImageNameAndType.
  destruct (scanExtension url) as [found st]; cbv zeta.
  match goal with
  | |- context [if truthy ?mt then _ else _] =>
      destruct mt as [[|c mt']|] eqn:Hmt
  end; cbn [truthy]; auto.
  right; eexists _, _; split; [reflexivity | discriminate].
Qed.

(** X5.  For a URL, [getImageName] and [getImageType] are defined
    together: the one is undefined exactly when the other is, and a type
    that is defined is not the empty string. *)
Theorem X5_name_and_type_together (nanoid : jsstring) (url : URL) :
  (getImageName nanoid (inr url) = None
   <-> getImageType nanoid (OfURL url) = None)
  /\ getImageType nanoid (OfURL url) <> Some [].
Proof.
  unfold getImageName, getImageType.
  destruct (getImageNameAndType_url_shape nanoid url None)
    as [-> | (name & mime & -> & Hne)]; cbn [fst snd].
  - repeat split; auto; discriminate.
  - repeat split; try discriminate.
    intros [= ->]; contradiction.
Qed.

(** X6.  The identifier [nanoid] returns reaches the file name only: the
    MIME type of a URL does not depend on it, and neither does the asset
    built from an uploading record. *)
Theorem X6_type_independent_of_nanoid (nanoid nanoid' : jsstring) :
  (forall url d,
      snd (getImageNameAndType nanoid url d)
      = snd (getImageNameAndType nanoid' url d))
  /\ (forall parseURL fileData,
         uploadingFileDataToAsset nanoid parseURL fileData
         = uploadingFileDataToAsset nanoid' parseURL fileData).
Proof.
  assert (Hsnd : forall url d,
             snd (getImageNameAndType nanoid url d)
             = snd (getImageNameAndType nanoid' url d)).
  { intros [s|url] d; [reflexivity|].
    unfold getImageNameAndType.
    destruct (scanExtension url) as [found st]; cbv zeta.
    match goal with
    | |- context [if ?c then _ else _] => destruct c
    end; reflexivity. }
  split; [exact Hsnd|].
  intros parseURL fileData; unfold uploadingFileDataToAsset.
  destruct (uploadSource parseURL fileData) as [[file|url|s]|];
    [reflexivity | | | reflexivity];
    unfold getImageType; rewrite (Hsnd _ None); reflexivity.
Qed.

(** The extensions before the one the scan finds are none the basename
    ends with. *)
Lemma findWith_first (url : URL) (basename : jsstring)
    (l : list jsstring) : forall st E,
  fileName st = None \/ fileName st = capturedFileName url ->
  fst (findWith (extensionApplies url basename) l st) = Some E ->
  exists pre post,
    l = pre ++ E :: post
    /\ forall e, In e pre -> endsWith basename e = false.
Proof.
  induction l as [|ext l IH]; simpl; intros st E H; [discriminate|].
  destruct (extensionApplies_spec url basename ext st H)
    as (Hends & Hname & _).
  destruct (extensionApplies url basename ext st) as [found st'].
  simpl in *; destruct found; simpl.
  - intros [= ->]; exists [], l; split; [reflexivity | contradiction].
  - intros Hfind.
    assert (Hb : endsWith basename ext = false)
      by (destruct (endsWith basename ext); auto;
          discriminate Hends; reflexivity).
    rewrite Hb in Hname.
    destruct (IH st' E (or_intror Hname) Hfind) as (pre & post & -> & Hpre).
    exists (ext :: pre), post; split; [reflexivity|].
    intros e [<-|He]; auto.
Qed.

(** X7.  When the basename ends with an extension of the table, the URL
    always gets a name and a type, with or without a default extension;
    the extension that decides is that one or one declared before it in
    the table (one that a search param or a captured name or type
    names). *)
Theorem X7_basename_extension_resolves (nanoid : jsstring) (url : URL)
    (d : option jsstring) (E : jsstring) :
  In E imageExtensions ->
  endsWith (basenameOf url) E = true ->
  exists E' m name pre post,
    imageExtensions = pre ++ E' :: post
    /\ ~ In E pre
    /\ In (E', m) imageExtensionToMime
    /\ getImageNameAndType nanoid (inr url) d = (Some name, Some m).
Proof.
  intros HE Hends.
  pose proof (findWith_spec url (basenameOf url) imageExtensions
                (ScanState None None) (or_introl eq_refl)) as Hspec.
  fold (scanExtension url) in Hspec.
  destruct (fst (scanExtension url)) as [E'|] eqn:Hscan.
  - destruct (findWith_first url (basenameOf url) imageExtensions
                (ScanState None None) E' (or_introl eq_refl) Hscan)
      as (pre & post & Hl & Hpre).
    assert (Hres : nullishOpt (fst (scanExtension url)) d = Some E')
      by (rewrite Hscan; reflexivity).
    destruct (getImageNameAndType_resolved nanoid url d E' Hres
                (scanExtension_in url E' Hscan)) as (m & Hin & Heq).
    exists E', m; eexists; exists pre, post.
    repeat split; eauto.
    intros Hin'; rewrite (Hpre E Hin') in Hends; discriminate.
  - destruct Hspec as [Hall _].
    rewrite (Hall E HE) in Hends; discriminate.
Qed.

Lemma X7_basename_extension_resolves_witness :
  exists E' m name pre post,
    imageExtensions = pre ++ E' :: post
    /\ ~ In (js ".png") pre
    /\ In (E', m) imageExtensionToMime
    /\ getImageNameAndType (js "ID")
         (inr (mkURL (js "/a/pic.png") [(js "src", js "old.gif")])) None
       = (Some name, Some m).
Proof.
  apply (X7_basename_extension_resolves (js "ID")
           (mkURL (js "/a/pic.png") [(js "src", js "old.gif")]) None
           (js ".png")).
  - cbv; tauto.
  - vm_compute; reflexivity.
Defined.

(** Without search params the callback looks at the basename only. *)
Lemma extensionApplies_no_params (url : URL) (basename ext : jsstring) :
  searchParams url = [] ->
  In ext imageExtensions ->
  extensionApplies url basename ext (ScanState None None)
  = if endsWith basename ext
    then (true, ScanState (Some basename) None)
    else (false, ScanState None None).
Proof.
  intros Hparams Hext.
  unfold extensionApplies, paramLoop, searchParams_keys.
  rewrite Hparams.
  cbn [map fold_left fileName mimeType optEndsWith negb].
  destruct (endsWith basename ext); [reflexivity|].
  destruct (table_entry ext Hext) as (m & -> & _); reflexivity.
Qed.

(** Without search params the scan is [find] on the basename. *)
Lemma findWith_no_params (url : URL) (basename : jsstring)
    (l : list jsstring) :
  searchParams url = [] ->
  (forall e, In e l -> In e imageExtensions) ->
  findWith (extensionApplies url basename) l (ScanState None None)
  = match find (fun ext => endsWith basename ext) l with
    | Some E => (Some E, ScanState (Some basename) None)
    | None => (None, ScanState None None)
    end.
Proof.
  intros Hparams; induction l as [|ext l IH]; intros Hl; [reflexivity|].
  cbn [findWith find].
  rewrite extensionApplies_no_params by (auto; apply Hl; left; reflexivity).
  destruct (endsWith basename ext); [reflexivity|].
  apply IH; intros e He; apply Hl; right; exact He.
Qed.

(** X8.  A URL without search params is judged by its basename alone.
    When the basename ends with an extension of the table, the result is
    the basename and the MIME type of that extension, whatever the
    default.  When it ends with none, the result is (undefined,
    undefined) without a default, and with a default of the table it is
    the MIME type of the default and a made-up name: the identifier, a
    dot, and the default extension with its own dot. *)
Theorem X8_url_without_search_params (nanoid : jsstring) (url : URL) :
  searchParams url = [] ->
  (forall E m d,
      In (E, m) imageExtensionToMime ->
      endsWith (basenameOf url) E = true ->
      getImageNameAndType nanoid (inr url) d
      = (Some (basenameOf url), Some m))
  /\ ((forall E, In E imageExtensions ->
                 endsWith (basenameOf url) E = false) ->
      getImageNameAndType nanoid (inr url) None = (None, None)
      /\ forall d m,
          In (d, m) imageExtensionToMime ->
          getImageNameAndType nanoid (inr url) (Some d)
          = (Some (nanoid ++ js "." ++ d), Some m)).
Proof.
  intros Hparams.
  pose proof (findWith_no_params url (basenameOf url) imageExtensions
                Hparams (fun e H => H)) as Hscan.
  fold (scanExtension url) in Hscan.
  split.
  - intros E m d Hin Hends.
    apply table_functional in Hin as [HE Hget].
    apply endsWith_iff in Hends as [q Hq].
    assert (Hf : find (fun ext => endsWith (basenameOf url) ext)
                   imageExtensions = Some E).
    { rewrite Hq; apply find_unique; auto using endsWith_app.
      intros e' He'; apply extension_suffix_unique; auto. }
    rewrite Hf in Hscan.
    assert (Hres : nullishOpt (fst (scanExtension url)) d = Some E)
      by (rewrite Hscan; reflexivity).
    destruct (getImageNameAndType_resolved nanoid url d E Hres HE)
      as (m' & Hin' & ->).
    apply table_functional in Hin' as [_ Hget'].
    rewrite Hscan; cbn [snd fileName nullish].
    rewrite Hget in Hget'; injection Hget' as <-; reflexivity.
  - intros Hnone.
    rewrite (proj2 (find_none_iff
                      (fun ext => endsWith (basenameOf url) ext)
                      imageExtensions) Hnone) in Hscan.
    split.
    + unfold getImageNameAndType; rewrite Hscan; reflexivity.
    + intros d m Hin.
      apply table_functional in Hin as [Hd Hget].
      assert (Hres : nullishOpt (fst (scanExtension url)) (Some d) = Some d)
        by (rewrite Hscan; reflexivity).
      destruct (getImageNameAndType_resolved nanoid url (Some d) d Hres Hd)
        as (m' & Hin' & ->).
      apply table_functional in Hin' as [_ Hget'].
      rewrite Hscan; cbn [snd fileName nullish].
      rewrite Hget in Hget'; injection Hget' as <-; reflexivity.
Qed.

Lemma X8_url_without_search_params_witness :
  getImageNameAndType (js "ID") (inr (mkURL (js "/a/logo.svg") []))
    (Some (js ".png"))
  = (Some (js "logo.svg"), Some (js "image/svg+xml"))
  /\ getImageNameAndType (js "ID") (inr (mkURL (js "/a/logo") []))
       (Some (js ".png"))
     = (Some (js "ID..png"), Some (js "image/png")).
Proof.
  split.
  - apply (proj1 (X8_url_without_search_params (js "ID")
                    (mkURL (js "/a/logo.svg") []) eq_refl)
             (js ".svg")).
    + cbv; tauto.
    + vm_compute; reflexivity.
  - apply (proj2 (X8_url_without_search_params (js "ID")
                    (mkURL (js "/a/logo") []) eq_refl)).
    + intros E HE; cbv in HE.
      repeat (destruct HE as [<-|HE]); try contradiction; reflexivity.
    + cbv; tauto.
Defined.

(** X9.  When no file name is captured from a content-disposition param
    and an extension is resolved (by the scan, or the default, which is
    of the table), the name returned ends with that extension: it is the
    basename when the basename ends with it, and otherwise the
    identifier, a dot, and the extension. *)
Theorem X9_name_without_captured_name (nanoid : jsstring) (url : URL)
    (d : option jsstring) (E : jsstring) :
  capturedFileName url = None ->
  (forall x, d = Some x -> In x imageExtensions) ->
  nullishOpt (fst (scanExtension url)) d = Some E ->
  exists name,
    fst (getImageNameAndType nanoid (inr url) d) = Some name
    /\ name = (if endsWith (basenameOf url) E then basenameOf url
               else nanoid ++ js "." ++ E)
    /\ endsWith name E = true.
Proof.
  intros Hcap Hd Hres.
  pose proof (resolved_in url d E Hd Hres) as HE.
  destruct (getImageNameAndType_resolved nanoid url d E Hres HE)
    as (m & _ & ->); cbn [fst].
  pose proof (findWith_spec url (basenameOf url) imageExtensions
                (ScanState None None) (or_introl eq_refl)) as Hspec.
  fold (scanExtension url) in Hspec.
  rewrite Hcap in Hspec; cbn [optEndsWith] in Hspec.
  assert (Hname : fileName (snd (scanExtension url))
                  = if endsWith (basenameOf url) E
                    then Some (basenameOf url) else None).
  { destruct (fst (scanExtension url)) as [E'|]; cbn [nullishOpt] in Hres.
    - injection Hres as ->; destruct Hspec as [_ ->]; reflexivity.
    - destruct Hspec as [Hall Hname].
      rewrite (Hall E HE), Hname by discriminate; reflexivity. }
  rewrite Hname; eexists; split; [reflexivity|].
  destruct (endsWith (basenameOf url) E) eqn:Hb; cbn [nullish].
  - split; [reflexivity | exact Hb].
  - split; [reflexivity|].
    rewrite app_assoc; apply endsWith_app.
Qed.

Lemma X9_name_without_captured_name_witness :
  exists name,
    fst (getImageNameAndType (js "ID")
           (inr (mkURL (js "/proxy") [(js "src", js "https://x.test/a.svg")]))
           None) = Some name
    /\ name = js "ID..svg"
    /\ endsWith name (js ".svg") = true.
Proof.
  apply (X9_name_without_captured_name (js "ID")
           (mkURL (js "/proxy") [(js "src", js "https://x.test/a.svg")])
           None (js ".svg")).
  - vm_compute; reflexivity.
  - discriminate.
  - vm_compute; reflexivity.
Defined.

(** The result for a URL depends on its search params through the list
    of the keys and the value [get] finds for each of them. *)
Lemma findWith_ext (f g : jsstring -> scanState -> bool * scanState)
    (l : list jsstring) :
  (forall e st, f e st = g e st) ->
  forall st, findWith f l st = findWith g l st.
Proof.
  intros Hfg; induction l as [|ext l IH]; simpl; intros st; [reflexivity|].
  rewrite Hfg; destruct (g ext st) as [[|] st']; auto.
Qed.

Lemma scanExtension_ext (url url' : URL) :
  pathname url = pathname url' ->
  searchParams_keys url = searchParams_keys url' ->
  (forall key, searchParams_get url key = searchParams_get url' key) ->
  scanExtension url = scanExtension url'.
Proof.
  intros Hpath Hkeys Hget.
  assert (Hstep : forall ext acc key,
             paramStep url ext acc key = paramStep url' ext acc key).
  { intros ext acc key; unfold paramStep; rewrite Hget; reflexivity. }
  assert (Hfold : forall ext keys acc,
             fold_left (paramStep url ext) keys acc
             = fold_left (paramStep url' ext) keys acc).
  { intros ext keys; induction keys as [|key keys IH]; simpl; intros acc;
      [reflexivity|].
    rewrite Hstep; apply IH. }
  unfold scanExtension, basenameOf; rewrite Hpath.
  apply findWith_ext; intros ext st.
  unfold extensionApplies, paramLoop; rewrite Hkeys, Hfold; reflexivity.
Qed.

Lemma mapGet_app (a b : list (jsstring * jsstring)) (key : jsstring) :
  mapGet (a ++ b) key
  = match mapGet a key with Some v => Some v | None => mapGet b key end.
Proof.
  induction a as [|[k v] a IH]; simpl; [reflexivity|].
  destruct (streq k key); auto.
Qed.

(** X10.  Of two search params with the same key, the value of the later
    one is never read: [searchParams.get] gives the value of the first
    for both, so changing the later value changes nothing in the
    result. *)
Theorem X10_later_duplicate_value_unread (nanoid : jsstring)
    (path key v1 v2 v2' : jsstring)
    (before between after : list (jsstring * jsstring))
    (d : option jsstring) :
  getImageNameAndType nanoid
    (inr (mkURL path
            (before ++ (key, v1) :: between ++ (key, v2) :: after))) d
  = getImageNameAndType nanoid
      (inr (mkURL path
              (before ++ (key, v1) :: between ++ (key, v2') :: after))) d.
Proof.
  unfold getImageNameAndType.
  rewrite (scanExtension_ext
             (mkURL path
                (before ++ (key, v1) :: between ++ (key, v2) :: after))
             (mkURL path
                (before ++ (key, v1) :: between ++ (key, v2') :: after)));
    [reflexivity | reflexivity | |].
  - unfold searchParams_keys; cbn [searchParams].
    rewrite !map_app; cbn [map]; rewrite !map_app; reflexivity.
  - intros k; unfold searchParams_get; cbn [searchParams].
    rewrite !mapGet_app; cbn [mapGet].
    destruct (mapGet before k); [reflexivity|].
    destruct (streq key k) eqn:Hk; [reflexivity|].
    rewrite !mapGet_app; cbn [mapGet]; rewrite Hk; reflexivity.
Qed.

(* ================================================================== *)
(** ** Further properties of the digests *)
(* ================================================================== *)

Lemma bufferToHex_app (a b : list byte) :
  bufferToHex (a ++ b) = bufferToHex a ++ bufferToHex b.
Proof.
  unfold bufferToHex; rewrite map_app, concat_app; reflexivity.
Qed.

(** X11.  For every buffer, [bufferToHex] writes two digits for each
    byte, all of them in 0-9 or a-f, and the text of two buffers one
    after the other is the text of the first followed by the text of the
    second. *)
Theorem X11_bufferToHex_shape (a b : list byte) :
  length (bufferToHex a) = (2 * length a)%nat
  /\ Forall (fun c => isLowerHexDigit c = true) (bufferToHex a)
  /\ bufferToHex (a ++ b) = bufferToHex a ++ bufferToHex b.
Proof.
  split; [apply bufferToHex_length|].
  split; [apply bufferToHex_lower | apply bufferToHex_app].
Qed.

Lemma byteOfHex_byteHex (b : byte) :
  byteOfHex (hexDigit (Byte.to_N b / 16)) (hexDigit (Byte.to_N b mod 16))
  = b.
Proof. destruct b; reflexivity. Qed.

Lemma hexToBuffer_bufferToHex (buffer : list byte) :
  hexToBuffer (bufferToHex buffer) = buffer.
Proof.
  rewrite bufferToHex_flat_map.
  induction buffer as [|b buffer IH]; simpl; [reflexivity|].
  rewrite byteOfHex_byteHex, IH; reflexivity.
Qed.

(** X12.  [bufferToHex] loses nothing: reading the digits back two by
    two gives the buffer again, so two buffers with the same text are the
    same buffer. *)
Theorem X12_bufferToHex_injective :
  (forall buffer, hexToBuffer (bufferToHex buffer) = buffer)
  /\ (forall a b, bufferToHex a = bufferToHex b -> a = b).
Proof.
  split; [apply hexToBuffer_bufferToHex|].
  intros a b H.
  rewrite <- (hexToBuffer_bufferToHex a), <- (hexToBuffer_bufferToHex b).
  now rewrite H.
Qed.

(** X13.  A file that is read to the end is hashed to 64 digits in 0-9
    or a-f, and when its bytes are the UTF-8 form of a string, the hash
    of the file is the hash [getSha256Hash] gives for that string. *)
Theorem X13_file_hash_agrees_with_string_hash (DOMException : Type)
    (fileReader : File.t -> readOutcome DOMException) (file : File.t)
    (bytes : list byte) (log : list call) :
  fileReader file = Load bytes ->
  exists hex,
    fst (getSha256HashOfFile DOMException fileReader file log)
    = Fulfilled hex
    /\ length hex = 64%nat
    /\ Forall (fun c => isLowerHexDigit c = true) hex
    /\ forall data log',
        bytes = TextEncoder.encode data ->
        fst (@getSha256Hash DOMException data log') = Fulfilled hex.
Proof.
  intros Hread; exists (bufferToHex (SHA256.digest bytes)).
  split; [|split; [|split]].
  - unfold getSha256HashOfFile, await, readFileAsArrayBuffer,
      subtle_digest, resolve.
    rewrite Hread; reflexivity.
  - rewrite bufferToHex_length, digest_length; reflexivity.
  - apply bufferToHex_lower.
  - intros data log' ->; reflexivity.
Qed.

Lemma X13_file_hash_agrees_with_string_hash_witness :
  exists hex,
    fst (getSha256HashOfFile nat (fun _ => Load [x61; x62; x63])
           (File.Build (js "abc.txt") (js "text/plain")) [])
    = Fulfilled hex
    /\ length hex = 64%nat
    /\ Forall (fun c => isLowerHexDigit c = true) hex
    /\ forall data log',
        [x61; x62; x63] = TextEncoder.encode data ->
        fst (@getSha256Hash nat data log') = Fulfilled hex.
Proof.
  apply (X13_file_hash_agrees_with_string_hash nat
           (fun _ => Load [x61; x62; x63])
           (File.Build (js "abc.txt") (js "text/plain"))
           [x61; x62; x63] []).
  reflexivity.
Defined.

(* ================================================================== *)
(** ** Further properties of the asset builder *)
(* ================================================================== *)

(** X14.  The asset builder fails in one case only: the record holds a
    URL string that [new URL] refuses.  A record that holds a [File]
    always gives an asset. *)
Theorem X14_asset_fails_only_on_bad_url (nanoid : jsstring)
    (parseURL : jsstring -> option URL) (fileData : UploadingFileData) :
  uploadingFileDataToAsset nanoid parseURL fileData = None
  <-> exists assetId objectURL url,
      fileData = FromUrl assetId objectURL url /\ parseURL url = None.
Proof.
  unfold uploadingFileDataToAsset.
  destruct fileData as [a o file | a o u]; cbn [uploadSource].
  - split.
    + destruct (startsWith _ _); discriminate.
    + intros (a' & o' & u' & Heq & _); discriminate.
  - destruct (parseURL u) as [url|] eqn:Hparse; cbn [option_map].
    + split.
      * destruct (startsWith _ _); discriminate.
      * intros (a' & o' & u' & [= -> -> ->] & Hnone); congruence.
    + split; [|reflexivity].
      intros _; exists a, o, u; auto.
Qed.

(** Every MIME type of the table starts with image/ and has one more
    segment, its subtype. *)
Lemma table_mimeType_subtype (m : jsstring) :
  In m imageMimeTypes ->
  exists subtype,
    m = js "image/" ++ subtype
    /\ startsWith m (js "image/") = true
    /\ nth_error (split 47 m) 1 = Some subtype.
Proof.
  intros H; cbv in H.
  repeat (destruct H as [<-|H]); try contradiction;
    eexists; (split; [|split]);
    try (vm_compute; reflexivity); reflexivity.
Qed.



(* ================================================================== *)
(** ** What the matcher accepts *)
(* ================================================================== *)

Lemma advance_app (b : option codeUnit) (t u : jsstring) :
  advance b (t ++ u) = advance (advance b t) u.
Proof. apply fold_left_app. Qed.

Lemma advance_nonempty (b : option codeUnit) (t : jsstring) :
  t <> [] -> advance b t = advance None t.
Proof.
  destruct t as [|c t]; [congruence | reflexivity].
Qed.

(** Greedy repetition reads some code units of the class and then goes
    on with the continuation. *)
Lemma star_path {R} (p : codeUnit -> bool) (k : pos -> option R)
    (s : jsstring) :
  forall b r, star p k b s = Some r ->
    exists t s',
      s = t ++ s' /\ forallb p t = true
      /\ k (Pos (advance b t) s') = Some r.
Proof.
  induction s as [|c s IH]; simpl; intros b r H.
  - exists [], []; auto.
  - destruct (p c) eqn:Hc.
    + destruct (star p k (Some c) s) as [r'|] eqn:Hs.
      * injection H as ->.
        destruct (IH _ _ Hs) as (t & s' & -> & Hp & Hk).
        exists (c :: t), s'; simpl; rewrite Hc; auto.
      * exists [], (c :: s); auto.
    + exists [], (c :: s); auto.
Qed.

(** Soundness: a run that succeeds went along a path of the pattern. *)
Lemma run_path (i : bool) (r : regex) :
  forall x cs k res,
    run i r x cs k = Some res ->
    exists y cs', matchPath i r x cs y cs' /\ k y cs' = Some res.
Proof.
  induction r as [| |c|p|p|r1 IH1 r2 IH2|r1 IH1 r2 IH2|n r1 IH1];
    simpl; intros x cs k res H.
  - exists x, cs; split; [constructor | exact H].
  - destruct (xorb _ _) eqn:Hb; [|discriminate].
    exists x, cs; split; [constructor; exact Hb | exact H].
  - destruct x as [b [|ch s]]; simpl in *; [discriminate|].
    destruct (charMatches i c ch) eqn:Hc; [|discriminate].
    exists (Pos (Some ch) s), cs; split; [constructor; exact Hc | exact H].
  - destruct x as [b [|ch s]]; simpl in *; [discriminate|].
    destruct (p ch) eqn:Hp; [|discriminate].
    exists (Pos (Some ch) s), cs; split; [constructor; exact Hp | exact H].
  - destruct x as [b [|ch s]]; simpl in *; [discriminate|].
    destruct (p ch) eqn:Hp; [|discriminate].
    apply star_path in H as (t & s' & -> & Ht & Hk).
    exists (Pos (advance (Some ch) t) s'), cs; split; [|exact Hk].
    change (ch :: t ++ s') with ((ch :: t) ++ s').
    change (advance (Some ch) t) with (advance b (ch :: t)).
    constructor; [discriminate | simpl; rewrite Hp; exact Ht].
  - destruct (IH1 _ _ _ _ H) as (y & cs1 & Hp1 & H1).
    destruct (IH2 _ _ _ _ H1) as (z & cs2 & Hp2 & H2).
    exists z, cs2; split; [econstructor; eauto | exact H2].
  - destruct (run i r1 x cs k) as [res1|] eqn:Hr1.
    + injection H as ->.
      destruct (IH1 _ _ _ _ Hr1) as (y & cs' & Hp & Hk).
      exists y, cs'; split; [apply path_Alt_left; exact Hp | exact Hk].
    + destruct (IH2 _ _ _ _ H) as (y & cs' & Hp & Hk).
      exists y, cs'; split; [apply path_Alt_right; exact Hp | exact Hk].
  - destruct (IH1 _ _ _ _ H) as (y & cs' & Hp & Hk).
    exists y, ((n, consumed x y) :: cs'); split;
      [constructor; exact Hp | exact Hk].
Qed.

Lemma star_complete {R} (p : codeUnit -> bool) (k : pos -> option R)
    (t s' : jsstring) :
  forall b res,
    forallb p t = true ->
    k (Pos (advance b t) s') = Some res ->
    exists res', star p k b (t ++ s') = Some res'.
Proof.
  induction t as [|c t IH]; simpl; intros b res Ht Hk.
  - destruct s' as [|c s']; simpl; [eauto|].
    destruct (p c); [|eauto].
    destruct (star p k (Some c) s'); eauto.
  - apply andb_true_iff in Ht as [Hc Ht]; rewrite Hc.
    destruct (IH (Some c) res Ht Hk) as (res' & ->); eauto.
Qed.

(** Completeness: when a path leads to a continuation that succeeds, the
    run succeeds (along that path or one the matcher tries before). *)
Lemma path_complete (i : bool) (r : regex) (x y : pos)
    (cs cs' : captures) :
  matchPath i r x cs y cs' ->
  forall k res,
    k y cs' = Some res -> exists res', run i r x cs k = Some res'.
Proof.
  induction 1 as [x cs|x cs Hb|c b ch s cs Hc|p b ch s cs Hp
                 |p b t s cs Hne Ht
                 |r1 r2 x cs y cs1 z cs2 _ IH1 _ IH2
                 |r1 r2 x cs y cs' _ IH|r1 r2 x cs y cs' _ IH
                 |n r x cs y cs' _ IH];
    intros k res Hk; simpl.
  - eauto.
  - rewrite Hb; eauto.
  - rewrite Hc; eauto.
  - rewrite Hp; eauto.
  - destruct t as [|ch t]; [congruence|]; simpl in *.
    apply andb_true_iff in Ht as [Hch Ht]; rewrite Hch.
    eapply star_complete; eauto.
  - destruct (IH2 _ _ Hk) as (res2 & H2).
    apply (IH1 (fun y cs' => run i r2 y cs' k) res2 H2).
  - destruct (IH _ _ Hk) as (res1 & ->); eauto.
  - destruct (run i r1 x cs k); eauto.
  - apply (IH (fun y cs' => k y ((n, consumed x y) :: cs')) res Hk).
Qed.

(** The search of [exec] succeeds exactly when the pattern has a path
    from some position of the input. *)
Lemma searchFrom_path (i : bool) (r : regex) (s : jsstring) :
  forall b cs,
    searchFrom i r b s = Some cs ->
    exists p s' y,
      s = p ++ s' /\ matchPath i r (Pos (advance b p) s') [] y cs.
Proof.
  induction s as [|c s IH]; simpl; intros b cs H.
  - destruct (run i r (Pos b []) [] _) as [cs'|] eqn:Hr; [|discriminate].
    injection H as ->.
    apply run_path in Hr as (y & cs' & Hp & [= ->]).
    exists [], [], y; auto.
  - destruct (run i r (Pos b (c :: s)) [] _) as [cs'|] eqn:Hr.
    + injection H as ->.
      apply run_path in Hr as (y & cs' & Hp & [= ->]).
      exists [], (c :: s), y; auto.
    + destruct (IH _ _ H) as (p & s' & y & -> & Hp).
      exists (c :: p), s', y; auto.
Qed.

Lemma searchFrom_complete (i : bool) (r : regex) (p s' : jsstring) :
  forall b y cs,
    matchPath i r (Pos (advance b p) s') [] y cs ->
    exists cs', searchFrom i r b (p ++ s') = Some cs'.
Proof.
  induction p as [|c p IH]; intros b y cs Hp.
  - destruct (path_complete _ _ _ _ _ _ Hp (fun _ cs => Some cs) cs eq_refl)
      as (res & Hrun).
    simpl in Hrun |- *; destruct s'; simpl; rewrite Hrun; eauto.
  - simpl.
    destruct (run i r (Pos b (c :: p ++ s')) [] _); [eauto|].
    apply (IH (Some c) y cs Hp).
Qed.

Lemma test_iff_path (i : bool) (r : regex) (s : jsstring) :
  test i r s = true
  <-> exists p s' y cs,
      s = p ++ s' /\ matchPath i r (Pos (advance None p) s') [] y cs.
Proof.
  unfold test, exec; split.
  - destruct (searchFrom i r None s) as [cs|] eqn:Hs; [|discriminate].
    intros _; apply searchFrom_path in Hs as (p & s' & y & Heq & Hp).
    exists p, s', y, cs; auto.
  - intros (p & s' & y & cs & -> & Hp).
    destruct (searchFrom_complete i r p s' None y cs Hp) as (cs' & ->).
    reflexivity.
Qed.

(** A literal of the pattern reads a string equal to it up to case. *)
Lemma path_lit_inv (w : jsstring) : forall x cs y cs',
  matchPath true (lit w) x cs y cs' ->
  exists u,
    rest x = u ++ rest y /\ equalsIgnoreCase w u = true
    /\ before y = advance (before x) u /\ cs' = cs.
Proof.
  induction w as [|c w IH]; simpl; intros x cs y cs' H.
  - inversion H; subst; exists []; auto.
  - inversion H as [| | | | |r1 r2 x0 cs0 y1 cs1 z cs2 Hc Hw| | |]; subst.
    inversion Hc; subst.
    destruct (IH _ _ _ _ Hw) as (u & Hrest & Heq & Hbefore & ->).
    simpl in *; exists (ch :: u); simpl.
    rewrite Hrest; repeat split; auto.
    apply andb_true_iff; auto.
Qed.

Lemma path_lit_intro (w : jsstring) : forall u b s cs,
  equalsIgnoreCase w u = true ->
  matchPath true (lit w) (Pos b (u ++ s)) cs (Pos (advance b u) s) cs.
Proof.
  induction w as [|c w IH]; intros [|ch u] b s cs H; simpl in H;
    try discriminate; simpl.
  - constructor.
  - apply andb_true_iff in H as [Hc Hw].
    econstructor; [constructor; exact Hc|].
    apply (IH u (Some ch) s cs Hw).
Qed.

Lemma isWordChar_canonicalize (ch : codeUnit) :
  isWordChar (canonicalize ch) = isWordChar ch.
Proof.
  unfold canonicalize.
  destruct (N.leb_spec 97 ch) as [Hlo|Hlo]; simpl; [|reflexivity].
  destruct (N.leb_spec ch 122) as [Hhi|Hhi]; simpl; [|reflexivity].
  unfold isWordChar.
  replace (65 <=? ch - 32) with true by (symmetry; apply N.leb_le; lia).
  replace (ch - 32 <=? 90) with true by (symmetry; apply N.leb_le; lia).
  replace (97 <=? ch) with true by (symmetry; apply N.leb_le; lia).
  replace (ch <=? 122) with true by (symmetry; apply N.leb_le; lia).
  simpl; rewrite !orb_true_r; reflexivity.
Qed.

Lemma charMatches_word (c ch : codeUnit) :
  charMatches true c ch = true -> isWordChar ch = isWordChar c.
Proof.
  unfold charMatches; intros H; apply N.eqb_eq in H.
  rewrite <- (isWordChar_canonicalize ch), <- H.
  apply isWordChar_canonicalize.
Qed.

Lemma equalsIgnoreCase_hd (w u : jsstring) :
  equalsIgnoreCase w u = true ->
  isWord (hd_error u) = isWord (hd_error w).
Proof.
  destruct w as [|c w], u as [|ch u]; simpl; try discriminate; auto.
  intros H; apply andb_true_iff in H as [Hc _].
  apply charMatches_word, Hc.
Qed.

Lemma equalsIgnoreCase_advance (w : jsstring) : forall u b b',
  equalsIgnoreCase w u = true ->
  isWord b = isWord b' ->
  isWord (advance b u) = isWord (advance b' w).
Proof.
  induction w as [|c w IH]; intros [|ch u] b b' H Hb; simpl in H;
    try discriminate; [exact Hb|].
  apply andb_true_iff in H as [Hc Hw].
  apply (IH u (Some ch) (Some c) Hw); simpl.
  apply charMatches_word, Hc.
Qed.

Lemma equalsIgnoreCase_nonempty (w u : jsstring) :
  equalsIgnoreCase w u = true -> w <> [] -> u <> [].
Proof.
  destruct w, u; simpl; congruence.
Qed.

(** The pattern [\bw\b] with the [i] flag, for a word [w] that starts and
    ends with a word character. *)
Lemma test_word (w key : jsstring) :
  isWord (hd_error w) = true ->
  isWord (advance None w) = true ->
  test true (Seq WordBoundary (Seq (lit w) WordBoundary)) key = true
  <-> occursAsWord w key.
Proof.
  intros Hfirst Hlast.
  assert (Hw : w <> []) by (destruct w; [discriminate | congruence]).
  rewrite test_iff_path; split.
  - intros (p & s' & y & cs & -> & H).
    inversion H as [| | | | |r1 r2 x0 cs0 y1 cs1 z cs2 Hb1 H'| | |]; subst.
    inversion Hb1 as [|x1 cs1' Hxor1| | | | | | |]; subst.
    inversion H' as [| | | | |r1 r2 x0 cs0 y2 cs2' z cs3 Hl Hb2| | |]; subst.
    inversion Hb2 as [|x1 cs1' Hxor2| | | | | | |]; subst.
    apply path_lit_inv in Hl as (u & Hrest & Heq & Hbefore & _).
    simpl in Hrest, Hbefore, Hxor1.
    pose proof (equalsIgnoreCase_nonempty w u Heq Hw) as Hu.
    exists p, u, (rest y); repeat split; auto.
    + rewrite Hrest; reflexivity.
    + rewrite Hrest in Hxor1.
      assert (Hhd : isWord (hd_error (u ++ rest y)) = true).
      { destruct u; [congruence|]; simpl.
        rewrite <- Hfirst; apply (equalsIgnoreCase_hd w (c :: u) Heq). }
      rewrite Hhd in Hxor1.
      destruct (isWord (advance None p)); [discriminate | reflexivity].
    + rewrite Hbefore, (advance_nonempty _ u Hu) in Hxor2.
      rewrite (equalsIgnoreCase_advance w u None None Heq eq_refl),
        Hlast in Hxor2.
      destruct (isWord (hd_error (rest y))); [discriminate | reflexivity].
  - intros (p & u & s & -> & Heq & Hp & Hs).
    pose proof (equalsIgnoreCase_nonempty w u Heq Hw) as Hu.
    exists p, (u ++ s), (Pos (advance (advance None p) u) s), [].
    split; [reflexivity|].
    econstructor.
    + constructor; simpl; rewrite Hp.
      destruct u; [congruence|]; simpl.
      rewrite <- Hfirst.
      apply (equalsIgnoreCase_hd w (c :: u) Heq).
    + econstructor; [apply path_lit_intro; exact Heq|].
      constructor; simpl; rewrite Hs, xorb_false_r.
      rewrite (advance_nonempty _ u Hu), <- Hlast.
      apply equalsIgnoreCase_advance; auto.
Qed.

(* ================================================================== *)
(** ** What the scan recognizes and captures *)
(* ================================================================== *)

(** X16.  The pattern for content-disposition keys (for content-type
    keys) accepts a key exactly when the key holds that word, in any
    case of the ASCII letters, with no word character right before it
    and none right after it.  This is about the two tests alone: whether
    an accepted key is then used also depends on the file name or MIME
    type not being set yet and on the order of the branches. *)
Theorem X16_param_key_recognition (key : jsstring) :
  (test true contentDispositionKey key = true
   <-> occursAsWord (js "content-disposition") key)
  /\ (test true contentTypeKey key = true
      <-> occursAsWord (js "content-type") key).
Proof.
  split; apply test_word; reflexivity.
Qed.

Lemma consumed_app (x y : pos) (a : jsstring) :
  rest x = a ++ rest y -> consumed x y = a.
Proof.
  unfold consumed; intros ->.
  rewrite length_app.
  replace (length a + length (rest y) - length (rest y))%nat
    with (length a + 0)%nat by lia.
  rewrite firstn_app_2; simpl; apply app_nil_r.
Qed.

Lemma mapGet_in_keys (m : list (jsstring * jsstring)) (key : jsstring) :
  In key (map fst m) -> exists v, mapGet m key = Some v.
Proof.
  induction m as [|[k v] m IH]; simpl; [contradiction|].
  destruct (streq k key) eqn:Hk; [eauto|].
  intros [->|Hin]; [rewrite streq_refl in Hk; discriminate | auto].
Qed.

(** With a continuation that never fails, greedy repetition reads every
    code unit of the class there is. *)
Lemma star_total {R} (p : codeUnit -> bool) (k : pos -> option R) :
  (forall y, k y <> None) ->
  forall s b,
    exists t s',
      s = t ++ s' /\ forallb p t = true
      /\ match s' with c :: _ => p c = false | [] => True end
      /\ star p k b s = k (Pos (advance b t) s').
Proof.
  intros Hk; induction s as [|c s IH]; intros b.
  - exists [], []; simpl; auto.
  - destruct (p c) eqn:Hc.
    + destruct (IH (Some c)) as (t & s' & Hs & Ht & Hs' & Heq).
      exists (c :: t), s'; subst s.
      repeat split; auto; [simpl; rewrite Hc; exact Ht|].
      change (advance b (c :: t)) with (advance (Some c) t).
      simpl; rewrite Hc, Heq.
      destruct (k (Pos (advance (Some c) t) s')) eqn:Hkk; [reflexivity|].
      exfalso; exact (Hk _ Hkk).
    + exists [], (c :: s); simpl; rewrite Hc; auto.
Qed.

Lemma run_seq_inv (i : bool) (r1 r2 : regex) (x : pos) (cs : captures)
    (k : pos -> captures -> option captures) (res : captures) :
  run i (Seq r1 r2) x cs k = Some res ->
  exists y cs1,
    matchPath i r1 x cs y cs1 /\ run i r2 y cs1 k = Some res.
Proof. simpl; intros H; apply run_path in H; exact H. Qed.

Lemma run_group_eq (i : bool) (n : nat) (r : regex) (x : pos)
    (cs : captures) (k : pos -> captures -> option captures) :
  run i (Group n r) x cs k
  = run i r x cs (fun y cs' => k y ((n, consumed x y) :: cs')).
Proof. reflexivity. Qed.

Lemma run_classPlus_total (i : bool) (p : codeUnit -> bool) (x : pos)
    (cs : captures) (k : pos -> captures -> option captures)
    (res : captures) :
  (forall y, k y cs <> None) ->
  run i (ClassPlus p) x cs k = Some res ->
  exists t s',
    rest x = t ++ s' /\ t <> [] /\ forallb p t = true
    /\ match s' with c :: _ => p c = false | [] => True end
    /\ k (Pos (advance (before x) t) s') cs = Some res.
Proof.
  intros Hk; destruct x as [b [|ch s]]; simpl; [discriminate|].
  destruct (p ch) eqn:Hp; [|discriminate]; intros H.
  destruct (star_total p (fun y => k y cs) Hk s (Some ch))
    as (t & s' & -> & Ht & Hs' & Heq).
  rewrite Heq in H.
  exists (ch :: t), s'; simpl; rewrite Hp.
  repeat split; auto; discriminate.
Qed.

Lemma searchFrom_run (i : bool) (r : regex) (s : jsstring) :
  forall b cs,
    searchFrom i r b s = Some cs ->
    exists p s',
      s = p ++ s'
      /\ run i r (Pos (advance b p) s') [] (fun _ cs => Some cs) = Some cs.
Proof.
  induction s as [|c s IH]; simpl; intros b cs H.
  - destruct (run i r (Pos b []) [] _) as [cs'|] eqn:Hr; [|discriminate].
    injection H as ->; exists [], []; auto.
  - destruct (run i r (Pos b (c :: s)) [] _) as [cs'|] eqn:Hr.
    + injection H as ->; exists [], (c :: s); auto.
    + destruct (IH _ _ H) as (p & s' & -> & Hrun).
      exists (c :: p), s'; auto.
Qed.

(** What the content-type pattern captures is a whole image token of the
    value. *)
Lemma mimeTypeMatch_shape (value : jsstring) (cs : captures) :
  exec true mimeTypeRe value = Some cs ->
  exists m, capture 1 cs = Some m /\ isImageTokenOf value m.
Proof.
  intros H; apply searchFrom_run in H as (p & s' & -> & H).
  unfold mimeTypeRe in H.
  apply run_seq_inv in H as (y & cs1 & Hb & Hg).
  inversion Hb as [|x1 cs1' Hxor| | | | | | |]; subst.
  rewrite run_group_eq in Hg.
  apply run_seq_inv in Hg as (y1 & cs1 & Hl & Hp).
  apply (path_lit_inv (js "image/")) in Hl as (u & Hrest & Heq & _ & ->).
  apply run_classPlus_total in Hp;
    try (intros z; cbv beta; discriminate).
  destruct Hp as (t & s & Ht & Hne & Hall & Hmax & Hk).
  injection Hk as <-; cbn [rest before] in Hrest, Hxor; subst s'.
  rewrite Ht in *.
  exists (u ++ t); split.
  - cbn [capture Nat.eqb]; f_equal; apply consumed_app; cbn [rest].
    apply app_assoc.
  - exists p, u, t, s; repeat split; auto.
    assert (Hhd : isWord (hd_error (u ++ t ++ s)) = true).
    { destruct u as [|c u]; [discriminate Heq|]; simpl.
      apply (equalsIgnoreCase_hd (js "image/") (c :: u) Heq). }
    rewrite Hhd in Hxor.
    destruct (isWord (advance None p)); [discriminate | reflexivity].
Qed.

Lemma isImageTokenOf_token (value h : jsstring) :
  isImageTokenOf value h -> isImageToken h.
Proof.
  intros (p & u & t & s & _ & -> & Heq & _ & Hne & Hall & _).
  exists u, t; auto.
Qed.

Section CapturedMimeType.

Variable url : URL.
Variable P : jsstring -> Prop.
Hypothesis P_match : forall key cs m,
  In key (searchParams_keys url) ->
  test true contentTypeKey key = true ->
  exec true mimeTypeRe (nullish (searchParams_get url key) []) = Some cs ->
  capture 1 cs = Some m -> P m.

Lemma paramStep_mimeType_inv ext acc key :
  In key (searchParams_keys url) ->
  (forall m, mimeType (fst acc) = Some m -> P m) ->
  forall m, mimeType (fst (paramStep url ext acc key)) = Some m -> P m.
Proof.
  intros Hkey.
  destruct acc as [st found]; unfold paramStep; simpl; intros H.
  destruct (negb (truthy (fileName st)) && _);
    [destruct (exec true fileNameRe _); exact H|].
  destruct (test true contentTypeKey key) eqn:Htest;
    [|rewrite andb_false_r; destruct (negb found && _); exact H].
  destruct (negb (truthy (mimeType st))); simpl.
  - destruct (exec true mimeTypeRe _) as [cs|] eqn:Hm; [|exact H].
    destruct (capture 1 cs) as [m0|] eqn:Hc; [|exact H].
    simpl; intros m [= <-]; eapply P_match; eauto.
  - destruct (negb found && _); exact H.
Qed.

Lemma fold_mimeType_inv ext keys : forall acc,
  incl keys (searchParams_keys url) ->
  (forall m, mimeType (fst acc) = Some m -> P m) ->
  forall m,
    mimeType (fst (fold_left (paramStep url ext) keys acc)) = Some m ->
    P m.
Proof.
  induction keys as [|key keys IH]; simpl; intros acc Hincl H; [exact H|].
  apply IH; [intros k Hk; apply Hincl; right; exact Hk|].
  apply paramStep_mimeType_inv; [apply Hincl; left; reflexivity | exact H].
Qed.

Lemma findWith_mimeType_inv (basename : jsstring) (l : list jsstring) :
  forall st,
    (forall m, mimeType st = Some m -> P m) ->
    forall m,
      mimeType (snd (findWith (extensionApplies url basename) l st))
      = Some m -> P m.
Proof.
  induction l as [|ext l IH]; simpl; intros st H; [exact H|].
  assert (Hst : forall m,
             mimeType (snd (extensionApplies url basename ext st)) = Some m
             -> P m).
  { unfold extensionApplies.
    pose proof (fold_mimeType_inv ext (searchParams_keys url)
                  (st, false) (incl_refl _) H) as Hl.
    fold (paramLoop url ext st) in Hl.
    destruct (paramLoop url ext st) as [st1 found]; simpl in *.
    destruct (endsWith basename ext); [|exact Hl].
    destruct (negb _); exact Hl. }
  destruct (extensionApplies url basename ext st) as [[|] st'];
    simpl in *; [exact Hst | apply IH; exact Hst].
Qed.

End CapturedMimeType.

(** A MIME type the scan captures is a whole image token of the value
    of a search param whose key is read as content-type. *)
Lemma scanExtension_mimeType_of_param (url : URL) (m : jsstring) :
  mimeType (snd (scanExtension url)) = Some m ->
  exists key value,
    In key (searchParams_keys url)
    /\ test true contentTypeKey key = true
    /\ searchParams_get url key = Some value
    /\ isImageTokenOf value m.
Proof.
  apply (findWith_mimeType_inv url
           (fun m => exists key value,
                In key (searchParams_keys url)
                /\ test true contentTypeKey key = true
                /\ searchParams_get url key = Some value
                /\ isImageTokenOf value m)).
  - intros key cs m0 Hkey Htest Hexec Hcap.
    destruct (mapGet_in_keys (searchParams url) key Hkey) as (value & Hget).
    unfold searchParams_get in *; rewrite Hget in Hexec;
      cbn [nullish] in Hexec.
    destruct (mimeTypeMatch_shape value cs Hexec) as (m1 & Hc & Htok).
    exists key, value; repeat split; auto; congruence.
  - discriminate.
Qed.

Lemma scanExtension_mimeType_token (url : URL) (m : jsstring) :
  mimeType (snd (scanExtension url)) = Some m -> isImageToken m.
Proof.
  intros H.
  destruct (scanExtension_mimeType_of_param url m H)
    as (key & value & _ & _ & _ & Htok).
  eapply isImageTokenOf_token; eauto.
Qed.

Lemma table_mimeType_token (m : jsstring) :
  In m imageMimeTypes -> isImageToken m.
Proof.
  intros H; cbv in H.
  repeat (destruct H as [<-|H]); try contradiction;
    exists (js "image/"); eexists;
    (split; [reflexivity | split; [reflexivity | split;
       [discriminate | reflexivity]]]).
Qed.

(** X17.  With a default extension of the table or none, every MIME type
    [getImageNameAndType] returns, for a string or for a URL, is an image
    token: image/ in any case of the letters, followed by at least one
    word character, [-] or [+] and by nothing else. *)
Theorem X17_returned_mimeType_is_image_token (nanoid : jsstring)
    (url : jsstring + URL) (d : option jsstring) (m : jsstring) :
  (forall x, d = Some x -> In x imageExtensions) ->
  snd (getImageNameAndType nanoid url d) = Some m ->
  isImageToken m.
Proof.
  intros Hd; destruct url as [s|url].
  - unfold getImageNameAndType.
    destruct (nullishOpt (find (fun ext => endsWith s ext) imageExtensions) d)
      as [E|] eqn:HE; [|discriminate].
    assert (HinE : In E imageExtensions).
    { destruct (find _ imageExtensions) as [e|] eqn:Hf;
        cbn [nullishOpt] in HE.
      - injection HE as <-; apply find_some in Hf; tauto.
      - auto. }
    destruct (table_entry E HinE) as (m' & Hget & Hin & -> & _).
    cbn [nullish snd]; rewrite Hget; intros [= <-].
    apply table_mimeType_token, (in_map snd _ _ Hin).
  - destruct (nullishOpt (fst (scanExtension url)) d) as [E|] eqn:HE.
    + destruct (getImageNameAndType_resolved nanoid url d E HE
                  (resolved_in url d E Hd HE)) as (m' & Hin & ->).
      cbn [snd]; intros [= <-].
      apply table_mimeType_token, (in_map snd _ _ Hin).
    + pose proof (scanExtension_mimeType_token url) as Htok.
      unfold getImageNameAndType.
      destruct (scanExtension url) as [found st]; cbn [fst snd] in *.
      rewrite HE; cbn [truthy].
      destruct (truthy (mimeType st)); [|discriminate].
      cbn [snd]; auto.
Qed.

Lemma X17_returned_mimeType_is_image_token_witness :
  isImageToken (js "IMAGE/avif").
Proof.
  apply (X17_returned_mimeType_is_image_token (js "ID")
           (inr (mkURL (js "/x") [(js "Content-Type", js "IMAGE/avif")]))
           None (js "IMAGE/avif")).
  - discriminate.
  - vm_compute; reflexivity.
Defined.

Lemma isImageToken_truthy (h : jsstring) :
  isImageToken h -> truthy (Some h) = true.
Proof.
  intros (u & t & -> & _ & Ht & _).
  destruct u; [destruct t; [congruence|] |]; reflexivity.
Qed.

(** X18.  The asset built for a URL is a font in one case only: the scan
    resolved no extension and captured a MIME type, an image token, whose
    image/ is not written in lower case throughout. *)
Theorem X18_url_asset_font_only_by_hint (nanoid : jsstring)
    (parseURL : jsstring -> option URL)
    (assetId objectURL u : jsstring) (url : URL) (asset : Asset.t) :
  parseURL u = Some url ->
  uploadingFileDataToAsset nanoid parseURL (FromUrl assetId objectURL u)
  = Some asset ->
  Asset.type asset = Asset.font ->
  fst (scanExtension url) = None
  /\ (exists h,
         mimeType (snd (scanExtension url)) = Some h
         /\ isImageToken h
         /\ startsWith h (js "image/") = false).
Proof.
  intros Hparse Hasset Hfont.
  unfold uploadingFileDataToAsset, uploadSource in Hasset.
  rewrite Hparse in Hasset; cbn [option_map] in Hasset; cbv zeta in Hasset.
  destruct (startsWith _ (js "image/")) eqn:Hstarts;
    [injection Hasset as <-; discriminate Hfont|].
  clear Hasset Hfont; unfold getImageType in Hstarts.
  destruct (fst (scanExtension url)) as [E|] eqn:HE.
  - assert (Hres : nullishOpt (fst (scanExtension url)) None = Some E)
      by (rewrite HE; reflexivity).
    destruct (getImageNameAndType_resolved nanoid url None E Hres
                (scanExtension_in url E HE)) as (m & Hin & Heq).
    rewrite Heq in Hstarts; cbn [snd nullish] in Hstarts.
    destruct (table_mimeType_subtype m (in_map snd _ _ Hin))
      as (subtype & _ & Hs & _).
    congruence.
  - split; [reflexivity|].
    pose proof (scanExtension_mimeType_token url) as Htok.
    unfold getImageNameAndType in Hstarts.
    destruct (scanExtension url) as [found st]; cbn [fst snd] in *.
    subst found; cbn [nullishOpt truthy] in Hstarts.
    destruct (mimeType st) as [h|]; [|discriminate Hstarts].
    specialize (Htok h eq_refl).
    rewrite (isImageToken_truthy h Htok) in Hstarts.
    exists h; auto.
Qed.

Lemma X18_url_asset_font_only_by_hint_witness :
  fst (scanExtension (mkURL (js "/x") [(js "Content-Type", js "IMAGE/PNG")]))
  = None
  /\ (exists h,
         mimeType
           (snd (scanExtension
                   (mkURL (js "/x") [(js "Content-Type", js "IMAGE/PNG")])))
         = Some h
         /\ isImageToken h
         /\ startsWith h (js "image/") = false).
Proof.
  apply (X18_url_asset_font_only_by_hint (js "ID")
           (fun _ => Some (mkURL (js "/x")
                             [(js "Content-Type", js "IMAGE/PNG")]))
           (js "a1") (js "blob:1") (js "https://x.test/x")
           (mkURL (js "/x") [(js "Content-Type", js "IMAGE/PNG")])
           (Asset.Build (js "a1") (js "blob:1") (Some (js "woff2"))
              Asset.font [] [] [] (Integer 0)
              (Asset.FontMeta (js "system") (js "normal") (Integer 400))));
    reflexivity.
Defined.

Lemma charMatches_nonletter (c ch : codeUnit) :
  (c <? 65) = true -> charMatches true c ch = true -> ch = c.
Proof.
  unfold charMatches, canonicalize; intros Hc H.
  apply N.ltb_lt in Hc; apply N.eqb_eq in H.
  destruct (N.leb_spec 97 c); [lia|]; simpl in H.
  destruct (N.leb_spec 97 ch), (N.leb_spec ch 122); simpl in H; lia.
Qed.

Lemma forallb_notChar (c : codeUnit) (t : jsstring) :
  forallb (notChar c) t = true -> ~ In c t.
Proof.
  induction t as [|x t IH]; simpl; [tauto|].
  intros H; apply andb_true_iff in H as [Hx Ht].
  unfold notChar in Hx; apply negb_true_iff, N.eqb_neq in Hx.
  intros [->|Hin]; [congruence | exact (IH Ht Hin)].
Qed.

(** What the content-disposition pattern captures from a value. *)
Lemma fileNameMatch_shape (value : jsstring) (cs : captures) :
  exec true fileNameRe value = Some cs ->
  isFileNameOf value
    (nullish (nullishOpt (capture 1 cs) (capture 2 cs)) []).
Proof.
  intros H; apply searchFrom_run in H as (p & s' & -> & H).
  unfold fileNameRe in H.
  apply run_seq_inv in H as (y & cs1 & Hb & H1).
  inversion Hb as [|x1 cs1' Hxor| | | | | | |]; subst.
  apply run_seq_inv in H1 as (y2 & cs1 & Hl & Ha).
  apply (path_lit_inv (js "filename=")) in Hl
    as (u & Hrest & Heq & _ & ->).
  cbn [rest before] in Hrest, Hxor; subst s'.
  assert (Hp : isWord (advance None p) = false).
  { assert (Hhd : isWord (hd_error (u ++ rest y2)) = true).
    { destruct u as [|c u]; [discriminate Heq|]; simpl.
      apply (equalsIgnoreCase_hd (js "filename=") (c :: u) Heq). }
    rewrite Hhd in Hxor.
    destruct (isWord (advance None p)); [discriminate | reflexivity]. }
  cbn [run] in Ha.
  match type of Ha with
  | match ?quoted with Some _ => _ | None => _ end = _ =>
      destruct quoted as [res|] eqn:Hq
  end.
  - injection Ha as ->.
    change (run true
              (Seq (Char 34)
                 (Seq (Group 1 (ClassPlus (notChar 34))) (Char 34)))
              y2 [] (fun _ cs => Some cs) = Some cs) in Hq.
    apply run_path in Hq as (z & cs' & Hq & [= ->]).
    inversion Hq as [| | | | |r1 r2 x0 cs0 y3 cs3 z0 cs4 Hq1 Hq2| | |]; subst.
    inversion Hq1 as [| |c b ch s cs0 Hch| | | | | |]; subst.
    inversion Hq2 as [| | | | |r1 r2 x0 cs0 y4 cs4 z0 cs5 Hg Hq3| | |]; subst.
    inversion Hg as [| | | | | | | |n r x0 cs0 y0 cs' Hplus]; subst.
    inversion Hplus as [| | | |q b' t s0 cs0 Hne Ht| | | |]; subst.
    inversion Hq3 as [| |c b' ch' s1 cs0 Hch'| | | | | |]; subst.
    apply charMatches_nonletter in Hch; [subst ch | reflexivity].
    apply charMatches_nonletter in Hch'; [subst ch' | reflexivity].
    cbn [capture nullishOpt nullish Nat.eqb rest].
    rewrite (consumed_app _ _ t) by reflexivity.
    exists p, u, s1; repeat split; auto.
    left; split; [reflexivity | apply forallb_notChar, Ht].
  - change (run true (Group 2 (ClassPlus (notChar 59))) y2 []
              (fun _ cs => Some cs) = Some cs) in Ha.
    rewrite run_group_eq in Ha.
    apply run_classPlus_total in Ha;
      try (intros z; cbv beta; discriminate).
    destruct Ha as (t & s & Ht & Hne & Hall & Hmax & Hk).
    injection Hk as <-.
    cbn [capture nullishOpt nullish Nat.eqb].
    rewrite (consumed_app y2 _ t) by exact Ht.
    exists p, u, s; repeat split; auto.
    right; rewrite Ht; split; [reflexivity|].
    split; [apply forallb_notChar, Hall|].
    destruct s as [|c s]; [left; reflexivity|right].
    unfold notChar in Hmax; apply negb_false_iff, N.eqb_eq in Hmax.
    subst c; reflexivity.
Qed.

Section CapturedFileName.

Variable url : URL.
Variable P : jsstring -> Prop.
Hypothesis P_match : forall key cs,
  In key (searchParams_keys url) ->
  test true contentDispositionKey key = true ->
  exec true fileNameRe (nullish (searchParams_get url key) []) = Some cs ->
  P (nullish (nullishOpt (capture 1 cs) (capture 2 cs)) []).

Lemma paramStep_fileName_inv ext acc key :
  In key (searchParams_keys url) ->
  (forall f, fileName (fst acc) = Some f -> P f) ->
  forall f, fileName (fst (paramStep url ext acc key)) = Some f -> P f.
Proof.
  intros Hkey H.
  destruct (negb (truthy (fileName (fst acc)))
            && test true contentDispositionKey key) eqn:Hcd.
  - apply andb_true_iff in Hcd as [Hfalsy Htest].
    destruct acc as [st found]; unfold paramStep; simpl in *.
    rewrite Hfalsy, Htest; simpl.
    destruct (exec true fileNameRe _) as [cs|] eqn:Hm; [|exact H].
    simpl; intros f [= <-]; apply (P_match key cs); auto.
  - rewrite (paramStep_fileName_other url ext acc key Hcd); exact H.
Qed.

Lemma fold_fileName_inv ext keys : forall acc,
  incl keys (searchParams_keys url) ->
  (forall f, fileName (fst acc) = Some f -> P f) ->
  forall f,
    fileName (fst (fold_left (paramStep url ext) keys acc)) = Some f ->
    P f.
Proof.
  induction keys as [|key keys IH]; simpl; intros acc Hincl H; [exact H|].
  apply IH; [intros k Hk; apply Hincl; right; exact Hk|].
  apply paramStep_fileName_inv; [apply Hincl; left; reflexivity | exact H].
Qed.

Lemma capturedFileName_inv (f : jsstring) :
  capturedFileName url = Some f -> P f.
Proof.
  unfold capturedFileName, paramLoop.
  apply fold_fileName_inv; [apply incl_refl | discriminate].
Qed.

End CapturedFileName.

(** X19.  A file name is captured only from the value of a search param
    whose key is read as content-disposition, and only in one of two
    shapes: after filename= (in any case), either between double quotes
    and holding none, or bare and holding no semicolon; it is never
    empty. *)
Theorem X19_captured_name_shape (url : URL) (f : jsstring) :
  capturedFileName url = Some f ->
  exists key value,
    In key (searchParams_keys url)
    /\ test true contentDispositionKey key = true
    /\ searchParams_get url key = Some value
    /\ isFileNameOf value f.
Proof.
  apply (capturedFileName_inv url
           (fun f => exists key value,
                In key (searchParams_keys url)
                /\ test true contentDispositionKey key = true
                /\ searchParams_get url key = Some value
                /\ isFileNameOf value f)).
  intros key cs Hkey Htest Hexec.
  destruct (mapGet_in_keys (searchParams url) key Hkey) as (value & Hget).
  unfold searchParams_get in *; rewrite Hget in Hexec; cbn [nullish] in Hexec.
  exists key, value; repeat split; auto.
  apply fileNameMatch_shape, Hexec.
Qed.

Lemma X19_captured_name_shape_witness :
  exists key value,
    In key
      (searchParams_keys
         (mkURL (js "/download")
            [(js "response-content-disposition",
              js "inline; filename=cat.webp; size=3")]))
    /\ test true contentDispositionKey key = true
    /\ searchParams_get
         (mkURL (js "/download")
            [(js "response-content-disposition",
              js "inline; filename=cat.webp; size=3")]) key
       = Some value
    /\ isFileNameOf value (js "cat.webp").
Proof.
  apply (X19_captured_name_shape
           (mkURL (js "/download")
              [(js "response-content-disposition",
                js "inline; filename=cat.webp; size=3")])
           (js "cat.webp")).
  vm_compute; reflexivity.
Defined.

(** X20.  The name returned for a URL comes from one of three places: it
    is the basename, or the file name captured from a
    content-disposition param, or the identifier of [nanoid] followed by
    a dot and the text of the resolved extension. *)
Theorem X20_returned_name_origin (nanoid : jsstring) (url : URL)
    (d : option jsstring) (name : jsstring) :
  fst (getImageNameAndType nanoid (inr url) d) = Some name ->
  name = basenameOf url
  \/ capturedFileName url = Some name
  \/ name = nanoid ++ js "."
            ++ template (nullishOpt (fst (scanExtension url)) d).
Proof.
  pose proof (findWith_spec url (basenameOf url) imageExtensions
                (ScanState None None) (or_introl eq_refl)) as Hspec.
  fold (scanExtension url) in Hspec.
  assert (Hname : fileName (snd (scanExtension url)) = capturedFileName url
                  \/ fileName (snd (scanExtension url))
                     = Some (basenameOf url)).
  { destruct (fst (scanExtension url)) as [E|].
    - destruct Hspec as [_ ->].
      destruct (endsWith (basenameOf url) E); auto.
      destruct (optEndsWith (capturedFileName url) E); auto.
    - destruct Hspec as [_ ->]; [auto | discriminate]. }
  unfold getImageNameAndType.
  destruct (scanExtension url) as [found st]; cbn [fst snd] in *.
  cbv zeta.
  match goal with
  | |- context [if ?c then _ else _] => destruct c
  end; [|discriminate].
  cbn [fst]; intros [= <-].
  destruct Hname as [Hname|Hname]; rewrite Hname.
  - destruct (capturedFileName url); cbn [nullish]; auto.
  - cbn [nullish]; auto.
Qed.

Lemma X20_returned_name_origin_witness :
  js "ID..svg" = basenameOf (mkURL (js "/proxy") [(js "src", js "a.svg")])
  \/ capturedFileName (mkURL (js "/proxy") [(js "src", js "a.svg")])
     = Some (js "ID..svg")
  \/ js "ID..svg"
     = js "ID" ++ js "."
       ++ template
            (nullishOpt
               (fst (scanExtension
                       (mkURL (js "/proxy") [(js "src", js "a.svg")])))
               None).
Proof.
  apply (X20_returned_name_origin (js "ID")
           (mkURL (js "/proxy") [(js "src", js "a.svg")]) None
           (js "ID..svg")).
  vm_compute; reflexivity.
Defined.

(** X21.  A MIME type the scan captures comes from the value of a search
    param whose key is read as content-type, and is a whole image token
    of that value: it starts at a word boundary and stops only at the
    end of the value or before a code unit that is no word character,
    [-] or [+]. *)
Theorem X21_captured_mimeType_of_param (url : URL) (m : jsstring) :
  mimeType (snd (scanExtension url)) = Some m ->
  exists key value,
    In key (searchParams_keys url)
    /\ test true contentTypeKey key = true
    /\ searchParams_get url key = Some value
    /\ isImageTokenOf value m.
Proof. apply scanExtension_mimeType_of_param. Qed.

Lemma X21_captured_mimeType_of_param_witness :
  exists key value,
    In key
      (searchParams_keys
         (mkURL (js "/x")
            [(js "response-content-type", js "image/avif; q=1")]))
    /\ test true contentTypeKey key = true
    /\ searchParams_get
         (mkURL (js "/x")
            [(js "response-content-type", js "image/avif; q=1")]) key
       = Some value
    /\ isImageTokenOf value (js "image/avif").
Proof.
  apply (X21_captured_mimeType_of_param
           (mkURL (js "/x")
              [(js "response-content-type", js "image/avif; q=1")])
           (js "image/avif")).
  vm_compute; reflexivity.
Defined.

(** Keys that give no file name leave [fileName] undefined. *)
Lemma fold_fileName_none (url : URL) (ext : jsstring)
    (keys : list jsstring) : forall acc,
  fileName (fst acc) = None ->
  (forall k, In k keys ->
     test true contentDispositionKey k = false
     \/ exec true fileNameRe (nullish (searchParams_get url k) []) = None) ->
  fileName (fst (fold_left (paramStep url ext) keys acc)) = None.
Proof.
  induction keys as [|key keys IH]; simpl; intros acc Hacc Hkeys;
    [exact Hacc|].
  apply IH; [|intros k Hk; apply Hkeys; right; exact Hk].
  destruct (test true contentDispositionKey key) eqn:Htest.
  - destruct (Hkeys key (or_introl eq_refl)) as [Hfalse|Hexec];
      [congruence|].
    destruct acc as [st found]; unfold paramStep; simpl in *.
    rewrite Hacc, Htest; simpl; rewrite Hexec; exact Hacc.
  - rewrite paramStep_fileName_other; [exact Hacc|].
    rewrite Htest; apply andb_false_r.
Qed.

(** X22.  Take the keys in the order of the URL, and for each key the
    value [searchParams.get] returns for it, which is the value of the
    first param with that key.  The first key that the
    content-disposition pattern accepts and whose value, so taken,
    matches the file name pattern gives the captured name; the keys
    after it do not change it.  When no key is such, no name is
    captured. *)
Theorem X22_first_file_name_wins (url : URL) :
  (forall pre key post cs,
      searchParams_keys url = pre ++ key :: post ->
      (forall k, In k pre ->
         test true contentDispositionKey k = false
         \/ exec true fileNameRe (nullish (searchParams_get url k) [])
            = None) ->
      test true contentDispositionKey key = true ->
      exec true fileNameRe (nullish (searchParams_get url key) [])
      = Some cs ->
      capturedFileName url
      = Some (nullish (nullishOpt (capture 1 cs) (capture 2 cs)) []))
  /\ ((forall k, In k (searchParams_keys url) ->
         test true contentDispositionKey k = false
         \/ exec true fileNameRe (nullish (searchParams_get url k) [])
            = None) ->
      capturedFileName url = None).
Proof.
  unfold capturedFileName, paramLoop; split.
  - intros pre key post cs -> Hpre Htest Hexec.
    rewrite fold_left_app; cbn [fold_left].
    pose proof (fold_fileName_none url (js ".gif") pre
                  (ScanState None None, false) eq_refl Hpre) as Hnone.
    destruct (fold_left (paramStep url (js ".gif")) pre _) as [st found].
    cbn [fst] in Hnone.
    assert (Hstep : fileName
                      (fst (paramStep url (js ".gif") (st, found) key))
                    = Some (nullish (nullishOpt (capture 1 cs)
                                                (capture 2 cs)) [])).
    { unfold paramStep; rewrite Hnone, Htest; simpl.
      rewrite Hexec; reflexivity. }
    rewrite fold_fileName_keep; [exact Hstep|].
    rewrite Hstep.
    pose proof (fileNameMatch_nonempty _ cs Hexec) as Hne.
    destruct (nullish (nullishOpt (capture 1 cs) (capture 2 cs)) []);
      [contradiction Hne; reflexivity | reflexivity].
  - intros Hall.
    apply (fold_fileName_none url (js ".gif") (searchParams_keys url)
             (ScanState None None, false) eq_refl Hall).
Qed.

Lemma X22_first_file_name_wins_witness :
  capturedFileName
    (mkURL (js "/d")
       [(js "id", js "7");
        (js "content-disposition", js "attachment");
        (js "response-content-disposition", js "filename=a.png");
        (js "x-content-disposition", js "filename=b.gif")])
  = Some (js "a.png").
Proof.
  apply (proj1 (X22_first_file_name_wins
                  (mkURL (js "/d")
                     [(js "id", js "7");
                      (js "content-disposition", js "attachment");
                      (js "response-content-disposition",
                       js "filename=a.png");
                      (js "x-content-disposition", js "filename=b.gif")]))
           [js "id"; js "content-disposition"]
           (js "response-content-disposition")
           [js "x-content-disposition"]
           [(2%nat, js "a.png")]).
  - reflexivity.
  - intros k [<-|[<-|[]]]; [left | right]; vm_compute; reflexivity.
  - vm_compute; reflexivity.
  - vm_compute; reflexivity.
Defined.
